(** * duld.drive: the upload orchestration engine of [DriveUploader]

    A shallow embedding of [src/duld/drive.py].  The coroutines of
    [DriveUploader] become computations in a state-and-exception monad over a
    [World]: the registry [_jobs], the state of the external collaborators
    and the chronological trace of every remote call and log line.  The
    remote drive, the HTTP client, the regular expression engine, the media
    probe and the hasher are interfaces ([Externals]); the local file
    system is a tree ([LocalTree]). *)

From stdpp Require Import gmap strings list.
From Stdlib Require Import Strings.Byte Strings.Ascii.


(** ** Data *)

(** An instance of Python's [Exception].  Signals that derive from
    [BaseException] only (cancellation, interpreter exit) are not
    modelled. *)
Inductive exn := Exn (what : string).

(** What an external call answers: a value, or an exception raised. *)
Inductive Reply (A : Type) :=
| Ok (a : A)
| Err (e : exn).
Arguments Ok {A} a.
Arguments Err {A} e.

(** The attributes of a remote node that the uploader reads. *)
Record Node := {
  id_ : string;
  is_folder : bool;
  trashed : bool;
  hash_ : string
}.

Definition is_file (n : Node) : bool := negb (is_folder n).

(** What a [pathlib.Path] denotes on disk when it is examined: nothing
    ([exists()] is false), a regular file with its bytes, or a directory
    with the entries [iterdir()] yields, each under its name. *)
Unset Elimination Schemes.
Inductive LocalTree :=
| Absent
| File (content : list byte)
| Dir (entries : list (string * LocalTree)).
Set Elimination Schemes.

(** A local path handed to [upload_path]: its text (the job key), its
    final component ([Path.name]) and what is on disk there. *)
Record LocalPath := {
  text : string;
  name : string;
  on_disk : LocalTree
}.

(** [settings]: the two keys drive.py reads. *)
Record Settings := {
  exclude_pattern : list string;
  exclude_url : option string
}.

Inductive Level := DEBUG | INFO | ERROR | EXCEPTION | WARNING.

Inductive LogMsg :=
| StillUploading (key : string)
| RemoteNotFound (remote_path : string)
| UploadFailed (item : string)
| SyncCount (count : nat)
| Excluded (item : string)
| NonExistPath (item : string)
| RemoteIsAFile (path : string)
| CannotCreate (path : string)
| CannotUpload (item : string)
| RetryUploadFile (e : exn)
| TriedUpload (times : nat)
| RemoteIsADirectory (path : string)
| AlreadyExists (path : string)
| Uploading (path : string)
| DifferentHash (path local_hash remote_hash : string)
| Caught (e : exn).

(** One entry of the trace: a call to a collaborator, or a log line. *)
Inductive Event :=
| Sync
| GetNodeByPath (remote_path : string)
| GetNodeByNameFromParent (child : string) (parent : Node)
| GetPath (node : Node)
| CreateFolder (parent : Node) (folder : string)
| TrashNodeById (id : string)
| GetHasher
| UploadFromLocal (parent : Node) (file : string)
| GetMediaInfo (file : string)
| HttpGet (url : string)
| Log (level : Level) (msg : LogMsg).

(** Calls that leave the process: the drive and the HTTP endpoint. *)
Definition is_remote_call (ev : Event) : bool :=
  match ev with
  | Log _ _ | GetMediaInfo _ => false
  | _ => true
  end.

(** Remote calls that change the remote tree. *)
Definition is_remote_write (ev : Event) : bool :=
  match ev with
  | CreateFolder _ _ | TrashNodeById _ | UploadFromLocal _ _ => true
  | _ => false
  end.

Definition is_sync (ev : Event) : bool :=
  match ev with Sync => true | _ => false end.

Definition is_upload (ev : Event) : bool :=
  match ev with UploadFromLocal _ _ => true | _ => false end.

(** Every run of [_upload_file] opens with exactly one [get_path] call,
    and nothing else in the retry loop calls [get_path]. *)
Definition is_attempt_start (ev : Event) : bool :=
  match ev with GetPath _ => true | _ => false end.

Definition count_events (p : Event → bool) (evs : list Event) : nat :=
  length (filter (λ ev, p ev = true) evs).

(** ** The external collaborators

    [E] is the state of everything outside the process (the remote tree
    and its change feed, the HTTP endpoint).  Each call may change it and
    answers with a value or an exception. *)
Class Externals (E : Type) := {
  Hasher : Type;
  MediaInfo : Type;
  (** [async for changes in self._drive.sync()]: the number of batches. *)
  sync : E → Reply nat * E;
  get_node_by_path : string → E → Reply (option Node) * E;
  get_node_by_name_from_parent : string → Node → E → Reply (option Node) * E;
  get_path : Node → E → Reply string * E;
  create_folder : Node → string → E → Reply (option Node) * E;
  trash_node_by_id : string → E → Reply unit * E;
  get_hasher : E → Reply Hasher * E;
  (** [wcpan.drive.core.util.upload_from_local(drive, node, path, info)] *)
  upload_from_local : Node → string → list byte → MediaInfo → E → Reply Node * E;
  (** [wcpan.drive.cli.util.get_media_info(path)] *)
  get_media_info : string → list byte → E → Reply MediaInfo * E;
  (** [self._curl.get(url)] followed by [rv.json()]: the items of the
      object, in order. *)
  curl_get_json : string → E → Reply (list (string * string)) * E;
  (** [re.match(pattern, name, re.IGNORECASE)] finds a match. *)
  re_match_ignorecase : string → string → bool;
  hasher_update : Hasher → list byte → Hasher;
  hexdigest : Hasher → string
}.

(** ** The monad of coroutines *)

(** How a coroutine ends: it returns, an exception escapes it, or it is
    still running when the model stops following it (the polling loop of
    [_upload_directory] has no bound of its own). *)
Inductive Outcome (A : Type) :=
| Ret (a : A)
| Raise (e : exn)
| Unfinished.
Arguments Ret {A} a.
Arguments Raise {A} e.
Arguments Unfinished {A}.

Definition RETRY_TIMES : nat := 3.

(** [fin.read(65536)] *)
Definition CHUNK : nat := N.to_nat 65536.

Section Uploader.

Context {E : Type} {ext : Externals E}.
Variable settings : Settings.

Record World := {
  _jobs : gset string;
  remote : E;
  trace : list Event
}.

Definition M (A : Type) : Type := World → Outcome A * World.

#[export] Instance M_ret : MRet M := λ A a w, (Ret a, w).

#[export] Instance M_bind : MBind M := λ A B k m w,
  match m w with
  | (Ret a, w') => k a w'
  | (Raise e, w') => (Raise e, w')
  | (Unfinished, w') => (Unfinished, w')
  end.

Definition unfinished {A} : M A := λ w, (Unfinished, w).

(** [try: m / except Exception as e:] with the handler left to the
    caller: the exception, if any, becomes a value. *)
Definition try {A} (m : M A) : M (Reply A) := λ w,
  match m w with
  | (Ret a, w') => (Ret (Ok a), w')
  | (Raise e, w') => (Ret (Err e), w')
  | (Unfinished, w') => (Unfinished, w')
  end.

Definition record (ev : Event) (w : World) : World :=
  {| _jobs := _jobs w; remote := remote w; trace := trace w ++ [ev] |}.

(** [LEVEL('duld') << ...] *)
Definition log (level : Level) (msg : LogMsg) : M unit := λ w,
  (Ret (), record (Log level msg) w).

(** A call to a collaborator: it is traced, the collaborator moves to its
    next state, and its answer is returned or raised. *)
Definition call {A} (ev : Event) (op : E → Reply A * E) : M A := λ w,
  let '(r, e') := op (remote w) in
  let w' := {| _jobs := _jobs w; remote := e'; trace := trace w ++ [ev] |} in
  match r with
  | Ok a => (Ret a, w')
  | Err e => (Raise e, w')
  end.

(** A block of statements either executes [return b] or falls through to
    the statement after it. *)
Definition returned (b : bool) : M (option bool) := mret (Some b).
Definition fall_through : M (option bool) := mret None.

Definition or_else (block : M (option bool)) (rest : M bool) : M bool :=
  r ← block;
  match r with
  | Some b => mret b
  | None => rest
  end.

(** ** [job_guard] and [md5sum] *)

Definition with_jobs (s : gset string) (w : World) : World :=
  {| _jobs := s; remote := remote w; trace := trace w |}.

(** [set_.add(token); try: yield; finally: set_.discard(token)] *)
Definition job_guard {A} (token : string) (body : M A) : M A := λ w,
  match body (with_jobs ({[token]} ∪ _jobs w) w) with
  | (Unfinished, w') => (Unfinished, w')
  | (r, w') => (r, with_jobs (_jobs w' ∖ {[token]}) w')
  end.

(** The reading loop of [md5sum]: at most [fuel] reads. *)
Fixpoint read_chunks (fuel : nat) (hasher : Hasher) (rest : list byte) : Hasher :=
  match fuel with
  | O => hasher
  | S fuel' =>
      match take CHUNK rest with
      | [] => hasher
      | chunk => read_chunks fuel' (hasher_update hasher chunk) (drop CHUNK rest)
      end
  end.

(** Every read but the last returns at least one byte, so
    [S (length content)] reads always reach the end of the file. *)
Definition md5sum (hasher : Hasher) (content : list byte) : string :=
  hexdigest (read_chunks (S (length content)) hasher content).

(** [pathlib.Path(parent, name)] and [op.join(parent, name)], as text. *)
Definition join (parent child : string) : string := parent +:+ "/" +:+ child.

(** ** The methods of [DriveUploader]

    A coroutine is followed from its call to its end, without
    interleaving: a request that arrives while another one is in flight
    is a run that starts in a world whose registry holds the key of the
    other.  [self._sync_lock] and [asyncio.sleep(1)] order and delay the
    resyncs and leave no mark on a single run. *)

Definition _sync : M unit :=
  count ← call Sync sync;
  log INFO (SyncCount count).

Definition matches_any (patterns : list string) (name : string) : bool :=
  existsb (λ pattern, re_match_ignorecase pattern name) patterns.

(** [if settings['exclude_url']]: neither [None] nor the empty string. *)
Definition configured (url : option string) : option string :=
  match url with
  | Some "" => None
  | _ => url
  end.

Definition _should_exclude (name : string) : M bool :=
  if matches_any (exclude_pattern settings) name then mret true
  else
    match configured (exclude_url settings) with
    | Some url =>
        rv ← call (HttpGet url) (curl_get_json url);
        mret (matches_any (map snd rv) name)
    | None => mret false
    end.

Definition _verify_remote_file (content : list byte)
    (remote_path remote_hash : string) : M bool :=
  hasher ← call GetHasher get_hasher;
  let local_hash := md5sum hasher content in
  if negb (String.eqb local_hash remote_hash) then
    log ERROR (DifferentHash remote_path local_hash remote_hash);;
    mret false
  else mret true.

(** [not child_node or child_node.trashed] *)
Definition absent_or_trashed (child_node : option Node) : bool :=
  match child_node with
  | Some child => trashed child
  | None => true
  end.

Definition _upload_file (node : Node) (file_name : string)
    (content : list byte) : M bool :=
  remote_path ← call (GetPath node) (get_path node);
  let remote_path := join remote_path file_name in
  child_node ← call (GetNodeByNameFromParent file_name node)
                 (get_node_by_name_from_parent file_name node);
  or_else
    match child_node with
    | Some child =>
        if negb (trashed child) then
          if is_folder child then
            log ERROR (RemoteIsADirectory remote_path);;
            returned false
          else
            (* check integrity *)
            ok ← _verify_remote_file content remote_path (hash_ child);
            if negb ok then returned false
            else
              log INFO (AlreadyExists remote_path);;
              fall_through
        else fall_through
    | None => fall_through
    end
  (or_else
    (if absent_or_trashed child_node then
       log INFO (Uploading remote_path);;
       media_info ← call (GetMediaInfo file_name) (get_media_info file_name content);
       child ← call (UploadFromLocal node file_name)
                 (upload_from_local node file_name content media_info);
       (* check integrity *)
       ok ← _verify_remote_file content remote_path (hash_ child);
       if negb ok then returned false else fall_through
     else fall_through)
    (mret true)).

(** [for _ in range(n): try: ... except Exception: ... else: return ok]
    followed by [await self._sync()], and the [else] of the [for]. *)
Fixpoint retry_loop (n : nat) (attempt : M bool) : M bool :=
  match n with
  | O =>
      log ERROR (TriedUpload RETRY_TIMES);;
      mret false
  | S n' =>
      r ← try attempt;
      match r with
      | Ok ok => mret ok
      | Err e =>
          log EXCEPTION (RetryUploadFile e);;
          _sync;;
          retry_loop n' attempt
      end
  end.

Definition _upload_file_retry (node : Node) (file_name : string)
    (content : list byte) : M bool :=
  retry_loop RETRY_TIMES (_upload_file node file_name content).

(** [while True: try: get_path(child); break / except Exception: pass;
    await self._sync()], followed for at most [fuel] rounds. *)
Fixpoint wait_for_path (fuel : nat) (child_node : Node) : M unit :=
  match fuel with
  | O => unfinished
  | S fuel' =>
      r ← try (call (GetPath child_node) (get_path child_node));
      match r with
      | Ok _ => mret ()
      | Err _ =>
          _sync;;
          wait_for_path fuel' child_node
      end
  end.

(** The body of the [elif] of [_upload_directory]: create the remote
    directory and wait until its path resolves.  [None] stands for
    [return False]. *)
Definition create_remote_directory (fuel : nat) (node : Node)
    (dir_name : string) : M (option Node) :=
  child_node ← call (CreateFolder node dir_name) (create_folder node dir_name);
  match child_node with
  | None =>
      path ← call (GetPath node) (get_path node);
      log ERROR (CannotCreate (join path dir_name));;
      mret None
  | Some child =>
      (* Need to update local cache for the added folder. *)
      wait_for_path fuel child;;
      mret (Some child)
  end.

(** The first half of [_upload_directory]: find or create the remote
    directory.  [None] stands for [return False]. *)
Definition find_or_create (fuel : nat) (node : Node) (dir_name : string)
    : M (option Node) :=
  child_node ← call (GetNodeByNameFromParent dir_name node)
                 (get_node_by_name_from_parent dir_name node);
  match child_node with
  | Some child =>
      if is_file child then
        path ← call (GetPath child) (get_path child);
        log ERROR (RemoteIsAFile path);;
        mret None
      else if trashed child || trashed node then
        create_remote_directory fuel node dir_name
      else mret (Some child)
  | None => create_remote_directory fuel node dir_name
  end.

(** [all_ok = True; for x in xs: ok = await body(x); if not ok: ERROR;
    all_ok = False] and then [return all_ok], started at any [all_ok]. *)
Section AllOk.
Context {A : Type}.
Variable body : A → M bool.
Variable complaint : A → LogMsg.

Fixpoint for_all_ok (xs : list A) (all_ok : bool) : M bool :=
  match xs with
  | [] => mret all_ok
  | x :: xs' =>
      ok ← body x;
      if negb ok then
        log ERROR (complaint x);;
        for_all_ok xs' false
      else for_all_ok xs' all_ok
  end.
End AllOk.

(** [_upload_directory], given what [self._upload] does on a child. *)
Definition upload_directory_with
    (upload : Node → string * LocalTree → M bool)
    (fuel : nat) (node : Node) (dir_name : string)
    (entries : list (string * LocalTree)) : M bool :=
  found ← find_or_create fuel node dir_name;
  match found with
  | None => mret false
  | Some child_node =>
      for_all_ok (upload child_node) (λ child_path, CannotUpload child_path.1)
        entries true
  end.

Fixpoint _upload (fuel : nat) (node : Node) (name : string)
    (local_path : LocalTree) {struct local_path} : M bool :=
  excluded ← _should_exclude name;
  if (excluded : bool) then
    log INFO (Excluded name);;
    mret true
  else
    match local_path with
    | Absent =>
        log WARNING (NonExistPath name);;
        mret false
    | Dir entries =>
        upload_directory_with
          (λ child_node child_path, _upload fuel child_node child_path.1 child_path.2)
          fuel node name entries
    | File content => _upload_file_retry node name content
    end.

Definition _upload_directory (fuel : nat) (node : Node) (dir_name : string)
    (entries : list (string * LocalTree)) : M bool :=
  upload_directory_with
    (λ child_node child_path, _upload fuel child_node child_path.1 child_path.2)
    fuel node dir_name entries.

Definition upload_path (fuel : nat) (remote_path : string)
    (local_path : LocalPath) : M bool := λ w,
  if decide (text local_path ∈ _jobs w) then
    (log WARNING (StillUploading (text local_path));; mret false) w
  else
    job_guard (text local_path)
      (_sync;;
       node ← call (GetNodeByPath remote_path) (get_node_by_path remote_path);
       match node with
       | None =>
           log ERROR (RemoteNotFound remote_path);;
           mret false
       | Some node =>
           ok ← _upload fuel node (name local_path) (on_disk local_path);
           if negb ok then
             log ERROR (UploadFailed (name local_path));;
             mret ok
           else mret ok
       end) w.

(** [torrent_root] is modelled by what lies under it: [torrent_root item]
    is what [pathlib.Path(torrent_root, item)] denotes on disk. *)
Definition upload_torrent (fuel : nat) (remote_path torrent_id : string)
    (torrent_root : string → LocalTree) (root_items : list string)
    : M bool := λ w,
  if decide (torrent_id ∈ _jobs w) then
    (log WARNING (StillUploading torrent_id);; mret false) w
  else
    job_guard torrent_id
      (_sync;;
       node ← call (GetNodeByPath remote_path) (get_node_by_path remote_path);
       match node with
       | None =>
           log ERROR (RemoteNotFound remote_path);;
           mret false
       | Some node =>
           (* files/directories to be upload *)
           let items := map (λ item, (item, torrent_root item)) root_items in
           for_all_ok (λ item, _upload fuel node item.1 item.2)
             (λ item, UploadFailed item.1) items true
       end) w.

(** Dead code in drive.py, kept for the record. *)
Definition _try_resolve_name_confliction (node : Node) (name : string)
    : M bool :=
  found ← call (GetNodeByNameFromParent name node)
            (get_node_by_name_from_parent name node);
  match found with
  | None => mret true
  | Some found =>
      r ← try (call (TrashNodeById (id_ found)) (trash_node_by_id (id_ found)));
      match r with
      | Ok _ => mret true
      | Err e =>
          log EXCEPTION (Caught e);;
          mret false
      end
  end.

End Uploader.

Arguments World E : clear implicits.
Arguments M E A : clear implicits.

(** The events a computation appended to the trace. *)
Definition since {E} (w w' : World E) : list Event :=
  drop (length (trace w)) (trace w').

(** ** A scripted collaborator

    A small remote tree in which a node's id is its canonical path, with a
    [Plan] that tells which calls fail.  It serves to run the uploader on
    concrete inputs. *)
Module Fake.

Record Plan := {
  failing_syncs : list nat;      (* the syncs, counted from 1, that raise *)
  failing_uploads : list nat;    (* the uploads, counted from 1, that raise *)
  paths_raise : bool;            (* [get_path] raises *)
  corrupting : bool;             (* uploaded files get a wrong hash *)
  patterns : Reply (list (string * string))  (* answer of the pattern URL *)
}.

Record Remote := {
  syncs : nat;
  uploads : nat;
  roots : list Node;
  children : list (string * string * Node)   (* parent id, name, node *)
}.

Definition lower (c : ascii) : ascii :=
  let n := N_of_ascii c in
  if ((65 <=? n) && (n <=? 90))%N then ascii_of_N (n + 32) else c.

(** A pattern without metacharacters matches a name that begins with it,
    whatever the case of the letters. *)
Fixpoint literal_match (pattern name : string) : bool :=
  match pattern, name with
  | EmptyString, _ => true
  | String a pattern', String b name' =>
      Ascii.eqb (lower a) (lower b) && literal_match pattern' name'
  | String _ _, EmptyString => false
  end.

Definition folder (path : string) : Node :=
  {| id_ := path; is_folder := true; trashed := false; hash_ := "" |}.

Definition file (path hash : string) : Node :=
  {| id_ := path; is_folder := false; trashed := false; hash_ := hash |}.

Definition discarded (n : Node) : Node :=
  {| id_ := id_ n; is_folder := is_folder n; trashed := true; hash_ := hash_ n |}.

Definition digest (content : list byte) : string := String.string_of_list_byte content.

Definition child_of (parent : Node) (child : string) (r : Remote) : option Node :=
  match
    List.find (λ c, String.eqb c.1.1 (id_ parent) && String.eqb c.1.2 child)
      (children r)
  with
  | Some c => Some c.2
  | None => None
  end.

Definition grow (parent : Node) (child : string) (n : Node) (r : Remote) : Remote :=
  {| syncs := syncs r; uploads := uploads r; roots := roots r;
     children := (id_ parent, child, n) :: children r |}.

Definition externals (plan : Plan) : Externals Remote := {|
  Hasher := list byte;
  MediaInfo := unit;
  sync r :=
    let n := S (syncs r) in
    let r' := {| syncs := n; uploads := uploads r; roots := roots r;
                 children := children r |} in
    (if existsb (Nat.eqb n) (failing_syncs plan) then Err (Exn "sync") else Ok 0, r');
  get_node_by_path p r :=
    (Ok (List.find (λ n, String.eqb (id_ n) p) (roots r ++ map snd (children r))), r);
  get_node_by_name_from_parent child parent r := (Ok (child_of parent child r), r);
  get_path n r :=
    (if paths_raise plan then Err (Exn "get_path") else Ok (id_ n), r);
  create_folder parent child r :=
    let n := folder (join (id_ parent) child) in
    (Ok (Some n), grow parent child n r);
  trash_node_by_id i r :=
    (Ok (),
     {| syncs := syncs r; uploads := uploads r; roots := roots r;
        children :=
          map (λ c, if String.eqb (id_ c.2) i then (c.1, discarded c.2) else c)
            (children r) |});
  get_hasher r := (Ok [], r);
  upload_from_local parent child content _ r :=
    let k := S (uploads r) in
    let r' := {| syncs := syncs r; uploads := k; roots := roots r;
                 children := children r |} in
    if existsb (Nat.eqb k) (failing_uploads plan) then (Err (Exn "upload"), r')
    else
      let n := file (join (id_ parent) child)
                 (if corrupting plan then "corrupt" else digest content) in
      (Ok n, grow parent child n r');
  get_media_info _ _ r := (Ok (), r);
  curl_get_json _ r := (patterns plan, r);
  re_match_ignorecase := literal_match;
  hasher_update h chunk := h ++ chunk;
  hexdigest := digest
|}.

Definition reliable : Plan :=
  {| failing_syncs := []; failing_uploads := []; paths_raise := false;
     corrupting := false; patterns := Ok [] |}.

Definition start (jobs : gset string) (r : Remote) : World Remote :=
  {| _jobs := jobs; remote := r; trace := [] |}.

Definition no_settings : Settings :=
  {| exclude_pattern := []; exclude_url := None |}.

(** The bytes of an ASCII text. *)
Definition bytes (s : string) : list byte := String.list_byte_of_string s.

Definition root : Node := folder "/remote".

(** An empty remote tree under [/remote]. *)
Definition empty_remote : Remote :=
  {| syncs := 0; uploads := 0; roots := [root]; children := [] |}.

(** [/remote/root] holds [a.txt] with the local bytes and [c.txt] with
    other bytes. *)
Definition mirrored : Remote :=
  {| syncs := 0; uploads := 0; roots := [root];
     children := [("/remote", "root", folder "/remote/root");
                  ("/remote/root", "a.txt", file "/remote/root/a.txt" "aaa");
                  ("/remote/root", "c.txt", file "/remote/root/c.txt" "zzz")] |}.

(** The name [root] under [/remote] is taken by a file. *)
Definition shadowed : Remote :=
  {| syncs := 0; uploads := 0; roots := [root];
     children := [("/remote", "root", file "/remote/root" "rrr")] |}.

Definition local_root : LocalPath :=
  {| text := "local/root"; name := "root";
     on_disk := Dir [("a.txt", File (bytes "aaa"));
                     ("c.txt", File (bytes "ccc"));
                     ("b.txt", File (bytes "bbb"))] |}.

(** Every transfer raises. *)
Definition transfers_fail : Plan :=
  {| failing_syncs := []; failing_uploads := [1; 2; 3]; paths_raise := false;
     corrupting := false; patterns := Ok [] |}.

(** The first two transfers raise. *)
Definition two_transfers_fail : Plan :=
  {| failing_syncs := []; failing_uploads := [1; 2]; paths_raise := false;
     corrupting := false; patterns := Ok [] |}.

(** Every transfer raises, and so does the third resync. *)
Definition third_sync_fails : Plan :=
  {| failing_syncs := [3]; failing_uploads := [1; 2; 3]; paths_raise := false;
     corrupting := false; patterns := Ok [] |}.

Definition first_sync_fails : Plan :=
  {| failing_syncs := [1]; failing_uploads := []; paths_raise := false;
     corrupting := false; patterns := Ok [] |}.

Definition corrupt_transfers : Plan :=
  {| failing_syncs := []; failing_uploads := []; paths_raise := false;
     corrupting := true; patterns := Ok [] |}.

Definition fetched_patterns : Plan :=
  {| failing_syncs := []; failing_uploads := []; paths_raise := false;
     corrupting := false; patterns := Ok [("thumbnails", "thumbs")] |}.

Definition static_patterns : Settings :=
  {| exclude_pattern := ["desktop"; "thumbs"];
     exclude_url := Some "http://patterns" |}.

Definition remote_patterns : Settings :=
  {| exclude_pattern := ["desktop"]; exclude_url := Some "http://patterns" |}.

End Fake.

(** Induction on local trees, with the hypothesis for every entry of a
    directory. *)
Section LocalTreeInd.
Variable P : LocalTree → Prop.
Hypothesis P_Absent : P Absent.
Hypothesis P_File : ∀ content, P (File content).
Hypothesis P_Dir : ∀ entries, Forall (λ entry, P entry.2) entries → P (Dir entries).

Fixpoint LocalTree_ind (t : LocalTree) : P t :=
  match t with
  | Absent => P_Absent
  | File content => P_File content
  | Dir entries =>
      P_Dir entries
        ((fix all (es : list (string * LocalTree)) : Forall (λ entry, P entry.2) es :=
            match es with
            | [] => List.Forall_nil _
            | entry :: es' => List.Forall_cons _ entry es' (LocalTree_ind entry.2) (all es')
            end) entries)
  end.
End LocalTreeInd.

(** ** Specifications used by the theorems *)

Section Scenarios.

Context {E : Type} {ext : Externals E}.
(** [k] rounds of the retry loop that all fail: the attempt raises, the
    exception is logged, the resync returns.  The world after the last
    round, if the rounds went that way. *)
Fixpoint failed_rounds (attempt : M E bool) (k : nat) (w : World E) : option (World E) :=
  match k with
  | O => Some w
  | S k' =>
      match attempt w with
      | (Raise e, w1) =>
          match _sync (record (Log EXCEPTION (RetryUploadFile e)) w1) with
          | (Ret _, w2) => failed_rounds attempt k' w2
          | _ => None
          end
      | _ => None
      end
  end.

(** The entries of a list uploaded one after the other, each returning a
    boolean, with the complaint logged after each [false]: the booleans
    and the final world, if every entry returned. *)
Fixpoint run_entries {A} (body : A → M E bool) (complaint : A → LogMsg)
    (xs : list A) (w : World E) : option (list bool * World E) :=
  match xs with
  | [] => Some ([], w)
  | x :: xs' =>
      match body x w with
      | (Ret ok, w1) =>
          let w1' := if ok then w1 else record (Log ERROR (complaint x)) w1 in
          match run_entries body complaint xs' w1' with
          | Some (oks, w2) => Some (ok :: oks, w2)
          | None => None
          end
      | _ => None
      end
  end.

(** The remote answers that make a file count as uploaded already: the
    parent's path resolves, the lookup finds a child that is neither
    trashed nor a folder, and its hash is the local one. *)
Definition already_uploaded (node : Node) (file_name : string)
    (content : list byte) (e : E) : Prop :=
  match get_path node e with
  | (Ok _, e1) =>
      match get_node_by_name_from_parent file_name node e1 with
      | (Ok (Some child), e2) =>
          trashed child = false ∧ is_folder child = false ∧
          match get_hasher e2 with
          | (Ok hasher, _) => md5sum hasher content = hash_ child
          | _ => False
          end
      | _ => False
      end
  | _ => False
  end.

(** Where a hash mismatch is found. *)
Inductive Mismatch := OnExisting | AfterUpload.

(** The remote answers under which an attempt meets a hash mismatch: on
    the child found by the lookup, or on the node the upload returns when
    the lookup finds nothing or a trashed child. *)
Definition hash_mismatch (where_ : Mismatch) (node : Node) (file_name : string)
    (content : list byte) (e : E) : Prop :=
  match get_path node e with
  | (Ok _, e1) =>
      match get_node_by_name_from_parent file_name node e1 with
      | (Ok found, e2) =>
          match where_ with
          | OnExisting =>
              match found with
              | Some child =>
                  trashed child = false ∧ is_folder child = false ∧
                  match get_hasher e2 with
                  | (Ok hasher, _) => md5sum hasher content ≠ hash_ child
                  | _ => False
                  end
              | None => False
              end
          | AfterUpload =>
              absent_or_trashed found = true ∧
              match get_media_info file_name content e2 with
              | (Ok media_info, e3) =>
                  match upload_from_local node file_name content media_info e3 with
                  | (Ok child, e4) =>
                      match get_hasher e4 with
                      | (Ok hasher, _) => md5sum hasher content ≠ hash_ child
                      | _ => False
                      end
                  | _ => False
                  end
              | _ => False
              end
          end
      | _ => False
      end
  | _ => False
  end.

(** A collaborator call that never raises, in whatever state. *)
Definition answers {A} (op : E → Reply A * E) : Prop :=
  ∀ e, ∃ a e', op e = (Ok a, e').

(** The calls made outside every [try]: by [_sync], by the two entry
    points, by [_should_exclude] and by [_upload_directory]. *)
Record unguarded_calls_answer : Prop := {
  sync_answers : answers sync;
  get_node_by_path_answers : ∀ p, answers (get_node_by_path p);
  curl_get_json_answers : ∀ url, answers (curl_get_json url);
  get_node_by_name_from_parent_answers :
    ∀ child parent, answers (get_node_by_name_from_parent child parent);
  create_folder_answers : ∀ parent child, answers (create_folder parent child);
  get_path_answers : ∀ n, answers (get_path n)
}.

(** A computation preserves a relation between worlds when every run of
    it, however it ends, relates the world it started in to the world it
    left. *)
Definition preserves (R : World E → World E → Prop) {A} (m : M E A) : Prop :=
  ∀ w, R w (m w).2.

(** The registry is as it was. *)
Definition same_jobs (w w' : World E) : Prop := _jobs w' = _jobs w.

(** The trace has only grown. *)
Definition trace_grows (w w' : World E) : Prop :=
  ∃ evs, trace w' = trace w ++ evs.

(** The trace has gained a log line of level ERROR or WARNING. *)
Definition complains (w w' : World E) : Prop :=
  ∃ evs level msg,
    trace w' = trace w ++ evs ∧ Log level msg ∈ evs ∧
    (level = ERROR ∨ level = WARNING).

(** What the registry holds for key [K] after a request that started in
    world [w]: while the request is unfinished the key is registered; once
    it has returned or raised the key is gone and the registry is the one
    the request found. *)
Definition released (K : string) (w : World E)
    (run : Outcome bool * World E) : Prop :=
  match run.1 with
  | Unfinished => K ∈ _jobs (run.2)
  | _ => (K ∉ _jobs (run.2)) ∧ _jobs (run.2) = _jobs w
  end.

(** An attempt as the trace shows it: its events extend the trace, open
    with the one [get_path] call and hold no other, and no sync. *)
Definition one_attempt (attempt : M E bool) : Prop :=
  ∀ w, ∃ evs,
    trace (attempt w).2 = trace w ++ evs ∧
    count_events is_attempt_start evs = 1 ∧
    count_events is_sync evs = 0.

(** The computation comes to an end in every world. *)
Definition finishes {A} (m : M E A) : Prop :=
  ∀ w, (m w).1 ≠ Unfinished.

(** The computation returns a value in every world. *)
Definition returns {A} (m : M E A) : Prop :=
  ∀ w, ∃ a w', m w = (Ret a, w').

End Scenarios.

(** ** Further specifications: polling, fresh uploads, remote writes *)

Definition is_get_path (ev : Event) : bool :=
  match ev with GetPath _ => true | _ => false end.

Definition is_create (ev : Event) : bool :=
  match ev with CreateFolder _ _ => true | _ => false end.

Definition is_trash (ev : Event) : bool :=
  match ev with TrashNodeById _ => true | _ => false end.

(** The regular files and the directories of a local tree. *)
Fixpoint files (t : LocalTree) : nat :=
  match t with
  | Absent => 0
  | File _ => 1
  | Dir entries => list_sum (map (λ entry, files entry.2) entries)
  end.

Fixpoint dirs (t : LocalTree) : nat :=
  match t with
  | Absent => 0
  | File _ => 0
  | Dir entries => S (list_sum (map (λ entry, dirs entry.2) entries))
  end.

(** What an event costs when a transfer costs [cu], a folder creation
    [cc] and a trashing [ct]; everything else is free. *)
Definition cost (cu cc ct : nat) (ev : Event) : nat :=
  match ev with
  | UploadFromLocal _ _ => cu
  | CreateFolder _ _ => cc
  | TrashNodeById _ => ct
  | _ => 0
  end.

Definition total_cost (cu cc ct : nat) (evs : list Event) : nat :=
  list_sum (map (cost cu cc ct) evs).

Section MoreScenarios.

Context {E : Type} {ext : Externals E}.

(** Every run of the computation extends the trace by events that cost
    at most [n] together. *)
Definition spends (cu cc ct : nat) (n : nat) {A} (m : M E A) : Prop :=
  ∀ w, ∃ evs, trace (m w).2 = trace w ++ evs ∧ total_cost cu cc ct evs ≤ n.

(** [k] rounds of the polling loop of [_upload_directory] in which the
    path query raises and the resync returns: the world after them, if
    the rounds went that way. *)
Fixpoint failed_polls (child_node : Node) (k : nat) (w : World E)
    : option (World E) :=
  match k with
  | O => Some w
  | S k' =>
      match call (GetPath child_node) (get_path child_node) w with
      | (Raise _, w1) =>
          match _sync w1 with
          | (Ret _, w2) => failed_polls child_node k' w2
          | _ => None
          end
      | _ => None
      end
  end.

(** The remote answers under which an attempt uploads the file anew and
    finds the hash it expects: the lookup finds nothing or a trashed
    node, the media probe and the transfer answer, and the node the
    transfer returns carries the local hash. *)
Definition fresh_upload_verifies (node : Node) (file_name : string)
    (content : list byte) (e : E) : Prop :=
  match get_path node e with
  | (Ok _, e1) =>
      match get_node_by_name_from_parent file_name node e1 with
      | (Ok found, e2) =>
          absent_or_trashed found = true ∧
          match get_media_info file_name content e2 with
          | (Ok media_info, e3) =>
              match upload_from_local node file_name content media_info e3 with
              | (Ok child, e4) =>
                  match get_hasher e4 with
                  | (Ok hasher, _) => md5sum hasher content = hash_ child
                  | _ => False
                  end
              | _ => False
              end
          | _ => False
          end
      | _ => False
      end
  | _ => False
  end.

End MoreScenarios.

(** * tmacd.hah: the line buffer of [HaHEventHandler]

    [_push_lines] of [src/tmacd/hah.py]: the lines read from the log are
    appended to [self._lines], which is then drained from the front; a
    first line without its newline waits for more input when it is alone
    and is glued to the line after it otherwise. *)
Module HaH.

Definition newline : ascii := "010"%char.

(** [line.endswith('\n')] *)
Fixpoint endswith_newline (line : string) : bool :=
  match line with
  | EmptyString => false
  | String c EmptyString => Ascii.eqb c newline
  | String _ rest => endswith_newline rest
  end.

(** The literal that opens the pattern. *)
Definition FINISHED : string :=
  "[info] GalleryDownloader: Finished download of gallery: ".

(** What follows the literal [p] in [s], when [s] begins with it. *)
Fixpoint after_literal (p s : string) : option string :=
  match p, s with
  | EmptyString, _ => Some s
  | String a p', String b s' =>
      if Ascii.eqb a b then after_literal p' s' else None
  | String _ _, EmptyString => None
  end.

(** The group of dots, starred, and the newline after it: a dot matches
    every character but the newline, so the group is what stands before
    the first newline; with it, what follows that newline. *)
Fixpoint dot_star_newline (s : string) : option (string * string) :=
  match s with
  | EmptyString => None
  | String c s' =>
      if Ascii.eqb c newline then Some (EmptyString, s')
      else
        match dot_star_newline s' with
        | Some (group, tail) => Some (String c group, tail)
        | None => None
        end
  end.

(** [$] without [re.MULTILINE]: the end of the string, or the place before
    a newline that ends the string. *)
Definition at_dollar (tail : string) : bool :=
  match tail with
  | EmptyString => true
  | String c EmptyString => Ascii.eqb c newline
  | String _ _ => false
  end.

(** [re.match] of the line against the pattern of [_push_lines] (the
    literal, a group of starred dots, a newline and a dollar), and
    [m.group(1)]. *)
Definition finished_gallery (line : string) : option string :=
  match after_literal FINISHED line with
  | Some rest =>
      match dot_star_newline rest with
      | Some (group, tail) => if at_dollar tail then Some group else None
      | None => None
      end
  | None => None
  end.

(** A call handed to [self._loop.add_callback]:
    [upload_torrent(settings['upload_to'], self._download_path, [name])]. *)
Record Callback := {
  upload_to : string;
  download_path : string;
  gallery : list string
}.

Section Handler.

Variable settings_upload_to : string.
Variable _download_path : string.

(** The match on one line and the callback it schedules. *)
Definition examine (line : string) : list Callback :=
  match finished_gallery line with
  | Some name =>
      [{| upload_to := settings_upload_to; download_path := _download_path;
          gallery := [name] |}]
  | None => []
  end.

(** [while self._lines: ...]: the callbacks scheduled, in order, and what
    is left in [self._lines]. *)
Fixpoint drain (_lines : list string) : list Callback * list string :=
  match _lines with
  | [] => ([], [])
  | line :: rest =>
      if endswith_newline line then
        let '(scheduled, kept) := drain rest in
        (examine line ++ scheduled, kept)
      else
        match rest with
        | [] => ([], [line])        (* not enough buffer *)
        | next :: rest' =>
            let '(scheduled, kept) := drain rest' in
            (examine (line +:+ next) ++ scheduled, kept)
        end
  end.

(** [self._lines.extend(lines)] and the loop. *)
Definition _push_lines (lines : list string) (_lines : list string)
    : list Callback * list string :=
  drain (_lines ++ lines).

End Handler.

(** The text of a log line that reports a finished gallery. *)
Definition report (name : string) : string :=
  FINISHED +:+ name +:+ String newline EmptyString.

(** No character of the string is a newline. *)
Fixpoint one_line (s : string) : bool :=
  match s with
  | EmptyString => true
  | String c s' => negb (Ascii.eqb c newline) && one_line s'
  end.

End HaH.

(** ** More scripted collaborators and inputs *)

Module Fixtures.

Import Fake.

(** A remote on which the path of a node resolves only after [lag]
    resyncs: everything else as on the reliable one. *)
Definition lagging (lag : nat) : Externals Remote := {|
  Hasher := list byte;
  MediaInfo := unit;
  sync := @sync _ (externals reliable);
  get_node_by_path := @get_node_by_path _ (externals reliable);
  get_node_by_name_from_parent :=
    @get_node_by_name_from_parent _ (externals reliable);
  get_path n r :=
    (if syncs r <? lag then Err (Exn "not yet") else Ok (id_ n), r);
  create_folder := @create_folder _ (externals reliable);
  trash_node_by_id := @trash_node_by_id _ (externals reliable);
  get_hasher := @get_hasher _ (externals reliable);
  upload_from_local := @upload_from_local _ (externals reliable);
  get_media_info := @get_media_info _ (externals reliable);
  curl_get_json := @curl_get_json _ (externals reliable);
  re_match_ignorecase := literal_match;
  hasher_update h chunk := h ++ chunk;
  hexdigest := digest
|}.

(** The path of a node never resolves. *)
Definition paths_never_resolve : Plan :=
  {| failing_syncs := []; failing_uploads := []; paths_raise := true;
     corrupting := false; patterns := Ok [] |}.

(** The pattern URL cannot be fetched. *)
Definition patterns_unreachable : Plan :=
  {| failing_syncs := []; failing_uploads := []; paths_raise := false;
     corrupting := false; patterns := Err (Exn "unreachable") |}.

(** [/remote] holds a folder under the name [a.txt]. *)
Definition folder_named_like_file : Remote :=
  {| syncs := 0; uploads := 0; roots := [root];
     children := [("/remote", "a.txt", folder "/remote/a.txt")] |}.

(** What lies under a download root: one good file and nothing under
    any other name. *)
Definition download_root (item : string) : LocalTree :=
  if String.eqb item "a.txt" then File (bytes "aaa") else Absent.

Definition line_feed : string := String HaH.newline EmptyString.

End Fixtures.

(** ** How computations run *)

Ltac unfold_monad :=
  unfold or_else, returned, fall_through in *;
  unfold mbind, mret, M_bind, M_ret, log, call, try, unfinished in *.

Section Running.

Context {E : Type} {ext : Externals E}.

Lemma run_bind {A B} (m : M E A) (k : A → M E B) (w : World E) :
  (m ≫= k) w =
  match m w with
  | (Ret a, w') => k a w'
  | (Raise e, w') => (Raise e, w')
  | (Unfinished, w') => (Unfinished, w')
  end.
Proof. reflexivity. Qed.

Lemma run_bind_ret {A B} (m : M E A) (k : A → M E B) w a w' :
  m w = (Ret a, w') → (m ≫= k) w = k a w'.
Proof. intros Hm. rewrite run_bind, Hm. reflexivity. Qed.

Lemma run_call_ok {A} ev (op : E → Reply A * E) (w : World E) a e' :
  op (remote w) = (Ok a, e') →
  call ev op w =
  (Ret a, {| _jobs := _jobs w; remote := e'; trace := trace w ++ [ev] |}).
Proof. intros Hop. unfold call. rewrite Hop. reflexivity. Qed.

Lemma since_app (w w' : World E) evs :
  trace w' = trace w ++ evs → since w w' = evs.
Proof. intros Htrace. unfold since. rewrite Htrace. apply drop_app_length. Qed.

(** [md5sum] reads the whole file: past [length rest] reads, more reads
    change nothing. *)
Lemma read_chunks_enough (fuel fuel' : nat) (hasher : Hasher) (rest : list byte) :
  length rest < fuel → length rest < fuel' →
  read_chunks fuel hasher rest = read_chunks fuel' hasher rest.
Proof.
  revert fuel' hasher rest.
  induction fuel as [|fuel IH]; intros fuel' hasher rest Hfuel Hfuel'; [lia|].
  destruct fuel' as [|fuel']; [lia|]. simpl.
  destruct rest as [|b rest]; [by rewrite take_nil|].
  assert (Hchunk : 0 < CHUNK) by (unfold CHUNK; lia).
  destruct CHUNK as [|n] eqn:Hn; [lia|]. simpl.
  apply IH; rewrite length_drop; simpl in *; lia.
Qed.

Lemma matches_any_elem (patterns : list string) (name pattern : string) :
  pattern ∈ patterns → re_match_ignorecase pattern name = true →
  matches_any patterns name = true.
Proof.
  intros Hin Hmatch. unfold matches_any. apply existsb_exists.
  exists pattern. split; [by apply list_elem_of_In | done].
Qed.

End Running.


(** Relations that hold across every step of a computation: across no
    step at all, across steps in sequence, and across a traced call or
    log line. *)
Section Preserves.

Context {E : Type} {ext : Externals E}.
Variable settings : Settings.
Variable R : World E → World E → Prop.
Hypothesis R_refl : ∀ w, R w w.
Hypothesis R_trans : ∀ w1 w2 w3, R w1 w2 → R w2 w3 → R w1 w3.
Hypothesis R_step : ∀ w e' ev,
  R w {| _jobs := _jobs w; remote := e'; trace := trace w ++ [ev] |}.

Lemma preserves_ret {A} (a : A) : preserves R (mret a : M E A).
Proof. intros w. apply R_refl. Qed.

Lemma preserves_bind {A B} (m : M E A) (k : A → M E B) :
  preserves R m → (∀ a, preserves R (k a)) → preserves R (m ≫= k).
Proof.
  intros Hm Hk w. rewrite run_bind. specialize (Hm w).
  destruct (m w) as [[a|e|] w1]; simpl in *; [|done..].
  eapply R_trans; [exact Hm | apply Hk].
Qed.

Lemma preserves_log level msg : preserves R (log level msg : M E unit).
Proof. intros w. apply R_step. Qed.

Lemma preserves_call {A} ev (op : E → Reply A * E) : preserves R (call ev op).
Proof.
  intros w. unfold call.
  destruct (op (remote w)) as [[a|e] e']; apply R_step.
Qed.

Lemma preserves_try {A} (m : M E A) : preserves R m → preserves R (try m).
Proof.
  intros Hm w. specialize (Hm w). unfold try.
  by destruct (m w) as [[a|e|] w1].
Qed.

Lemma preserves_unfinished {A} : preserves R (unfinished : M E A).
Proof. intros w. apply R_refl. Qed.

Lemma preserves_or_else block rest :
  preserves R block → preserves R rest →
  preserves R (or_else block rest : M E bool).
Proof.
  intros Hblock Hrest. apply preserves_bind; [done|].
  intros [b|]; [apply preserves_ret | done].
Qed.

Lemma preserves_returned b : preserves R (returned b : M E (option bool)).
Proof. apply preserves_ret. Qed.

Lemma preserves_fall_through : preserves R (fall_through : M E (option bool)).
Proof. apply preserves_ret. Qed.

Create HintDb preserves discriminated.
#[local] Hint Resolve preserves_ret preserves_log preserves_call
  preserves_unfinished preserves_returned preserves_fall_through : preserves.

Ltac preserves :=
  repeat first
    [ progress eauto with preserves
    | apply preserves_bind; [|intros ?]
    | apply preserves_or_else
    | apply preserves_try
    | case_match ].

Lemma preserves_sync : preserves R (_sync : M E unit).
Proof. unfold _sync. preserves. Qed.

#[local] Hint Resolve preserves_sync : preserves.

Lemma preserves_should_exclude name :
  preserves R (_should_exclude settings name).
Proof. unfold _should_exclude. preserves. Qed.

Lemma preserves_verify content remote_path remote_hash :
  preserves R (_verify_remote_file content remote_path remote_hash).
Proof. unfold _verify_remote_file. preserves. Qed.

#[local] Hint Resolve preserves_should_exclude preserves_verify : preserves.

Lemma preserves_upload_file node file_name content :
  preserves R (_upload_file node file_name content).
Proof. unfold _upload_file. preserves. Qed.

Lemma preserves_retry_loop n attempt :
  preserves R attempt → preserves R (retry_loop n attempt).
Proof. intros Hattempt. induction n as [|n IH]; simpl; preserves. Qed.

Lemma preserves_wait_for_path fuel child_node :
  preserves R (wait_for_path fuel child_node).
Proof. induction fuel as [|fuel IH]; simpl; preserves. Qed.

#[local] Hint Resolve preserves_upload_file preserves_retry_loop
  preserves_wait_for_path : preserves.

Lemma preserves_find_or_create fuel node dir_name :
  preserves R (find_or_create fuel node dir_name).
Proof. unfold find_or_create, create_remote_directory. preserves. Qed.

Lemma preserves_for_all_ok {A} (body : A → M E bool) complaint xs all_ok :
  Forall (λ x, preserves R (body x)) xs →
  preserves R (for_all_ok body complaint xs all_ok).
Proof.
  intros Hbody. revert all_ok.
  induction Hbody as [|x xs Hx _ IH]; intros all_ok; simpl; preserves.
Qed.

#[local] Hint Resolve preserves_find_or_create : preserves.

Lemma preserves_upload fuel node name local_path :
  preserves R (_upload settings fuel node name local_path).
Proof.
  revert node name.
  induction local_path as [|content|entries IH] using LocalTree_ind;
    intros node name; simpl.
  - preserves.
  - unfold _upload_file_retry. preserves.
  - apply preserves_bind; [preserves|]. intros [|]; [preserves|].
    unfold upload_directory_with. apply preserves_bind; [preserves|].
    intros [child_node|]; [|preserves].
    apply preserves_for_all_ok.
    eapply Forall_impl; [exact IH|]. intros entry Hentry. apply Hentry.
Qed.

(** What the two entry points run under [job_guard]. *)
Lemma preserves_upload_path_body fuel remote_path local_path :
  preserves R
    (_sync;;
     node ← call (GetNodeByPath remote_path) (get_node_by_path remote_path);
     match node with
     | None => log ERROR (RemoteNotFound remote_path);; mret false
     | Some node =>
         ok ← _upload settings fuel node (name local_path) (on_disk local_path);
         if negb ok then
           log ERROR (UploadFailed (name local_path));;
           mret ok
         else mret ok
     end).
Proof.
  apply preserves_bind; [preserves|]. intros _.
  apply preserves_bind; [preserves|]. intros [node|]; [|preserves].
  apply preserves_bind; [apply preserves_upload|]. intros [|]; simpl; preserves.
Qed.

Lemma preserves_upload_torrent_body fuel remote_path
    (torrent_root : string → LocalTree) root_items :
  preserves R
    (_sync;;
     node ← call (GetNodeByPath remote_path) (get_node_by_path remote_path);
     match node with
     | None => log ERROR (RemoteNotFound remote_path);; mret false
     | Some node =>
         for_all_ok (λ item, _upload settings fuel node item.1 item.2)
           (λ item, UploadFailed item.1)
           (map (λ item, (item, torrent_root item)) root_items) true
     end).
Proof.
  apply preserves_bind; [preserves|]. intros _.
  apply preserves_bind; [preserves|]. intros [node|]; [|preserves].
  apply preserves_for_all_ok, Forall_forall. intros item _.
  apply preserves_upload.
Qed.

End Preserves.

(** ** The registry of active jobs *)

Section Registry.

Context {E : Type} {ext : Externals E}.
Variable settings : Settings.

Lemma add_then_discard (s : gset string) (token : string) :
  ({[token]} ∪ s) ∖ {[token]} = s ∖ {[token]}.
Proof.
  apply set_eq. intros x. rewrite !elem_of_difference, elem_of_union. tauto.
Qed.

Lemma discard_absent (s : gset string) (token : string) :
  token ∉ s → s ∖ {[token]} = s.
Proof.
  intros Habsent. apply set_eq. intros x.
  rewrite elem_of_difference, elem_of_singleton.
  split; [tauto|]. intros Hx. split; [done|]. by intros ->.
Qed.

Lemma same_jobs_refl (w : World E) : same_jobs w w.
Proof. reflexivity. Qed.

Lemma same_jobs_trans (w1 w2 w3 : World E) :
  same_jobs w1 w2 → same_jobs w2 w3 → same_jobs w1 w3.
Proof. unfold same_jobs. congruence. Qed.

Lemma same_jobs_step (w : World E) e' ev :
  same_jobs w {| _jobs := _jobs w; remote := e'; trace := trace w ++ [ev] |}.
Proof. reflexivity. Qed.

(** What [job_guard] leaves in the registry, around a body that does not
    write it. *)
Lemma job_guard_jobs {A} token (body : M E A) (w : World E) :
  preserves same_jobs body →
  match (job_guard token body w).1 with
  | Unfinished => _jobs (job_guard token body w).2 = {[token]} ∪ _jobs w
  | _ => _jobs (job_guard token body w).2 = _jobs w ∖ {[token]}
  end.
Proof.
  intros Hbody. unfold job_guard.
  specialize (Hbody (with_jobs ({[token]} ∪ _jobs w) w)). unfold same_jobs in Hbody.
  destruct (body _) as [[a|e|] w1]; simpl in *; rewrite Hbody;
    [apply add_then_discard.. | reflexivity].
Qed.


(** C1. A call of [upload_path] or [upload_torrent] whose key is already
    in [_jobs] returns [False] at once: the registry and the collaborators
    are left as they were, and the trace gains the "is still uploading"
    warning and nothing else (no sync, no lookup, no upload). *)
Theorem duplicate_request_is_refused (fuel : nat) (remote_path : string)
    (local_path : LocalPath) (torrent_root : string → LocalTree)
    (root_items : list string) (w : World E) :
  text local_path ∈ _jobs w →
  let w' := {| _jobs := _jobs w; remote := remote w;
               trace := trace w ++ [Log WARNING (StillUploading (text local_path))] |} in
  upload_path settings fuel remote_path local_path w = (Ret false, w') ∧
  upload_torrent settings fuel remote_path (text local_path) torrent_root
    root_items w = (Ret false, w') ∧
  filter (λ ev, is_remote_call ev = true) (since w w') = [].
Proof.
  intros Hactive w'. unfold upload_path, upload_torrent.
  destruct (decide (text local_path ∈ _jobs w)) as [_|Hfree]; [|done].
  repeat split.
  rewrite (since_app w w' [Log WARNING (StillUploading (text local_path))]);
    reflexivity.
Qed.


Lemma job_guard_released K (body : M E bool) (w : World E) :
  K ∉ _jobs w → preserves same_jobs body → released K w (job_guard K body w).
Proof.
  intros Hfree Hbody. unfold released.
  pose proof (job_guard_jobs K body w Hbody) as Hjobs.
  destruct (job_guard K body w).1; rewrite Hjobs;
    rewrite ?(discard_absent _ _ Hfree); try done.
  apply elem_of_union_l, elem_of_singleton. reflexivity.
Qed.

(** C2, amended.  A request whose key is not in [_jobs] when it starts
    registers the key for as long as it runs, and once it completes,
    returning [True] or [False] or letting an exception escape, the key is
    absent and the registry is what it was before the request. *)
Theorem registry_entry_is_released (fuel : nat) (remote_path : string)
    (local_path : LocalPath) (torrent_root : string → LocalTree)
    (root_items : list string) (w : World E) :
  text local_path ∉ _jobs w →
  released (text local_path) w
    (upload_path settings fuel remote_path local_path w) ∧
  released (text local_path) w
    (upload_torrent settings fuel remote_path (text local_path) torrent_root
       root_items w).
Proof.
  intros Hfree. unfold upload_path, upload_torrent.
  destruct (decide (text local_path ∈ _jobs w)) as [|_]; [done|].
  split; apply job_guard_released; try done.
  - apply preserves_upload_path_body;
      [apply same_jobs_refl | apply same_jobs_trans | apply same_jobs_step].
  - apply preserves_upload_torrent_body;
      [apply same_jobs_refl | apply same_jobs_trans | apply same_jobs_step].
Qed.

End Registry.

(** ** Exclusion *)

Section Exclusion.

Context {E : Type} {ext : Externals E}.
Variable settings : Settings.

Lemma should_exclude_static (name : string) (w : World E) :
  matches_any (exclude_pattern settings) name = true →
  _should_exclude settings name w = (Ret true, w).
Proof. intros Hstatic. unfold _should_exclude. rewrite Hstatic. reflexivity. Qed.

Lemma upload_excluded fuel node name local_path (w w1 : World E) :
  _should_exclude settings name w = (Ret true, w1) →
  _upload settings fuel node name local_path w =
  (Ret true, record (Log INFO (Excluded name)) w1).
Proof.
  intros Hexcluded.
  destruct local_path; simpl; rewrite (run_bind_ret _ _ _ _ _ Hexcluded);
    reflexivity.
Qed.

(** C8. A name that one static pattern matches is excluded without any
    remote call: [_should_exclude] answers [True] in the world it was
    called in, and [_upload] returns [True] having only logged the
    exclusion, so that no event of the upload is a remote call (no fetch
    of the pattern URL, no lookup of the name). *)
Theorem static_exclusion_makes_no_remote_call (fuel : nat) (node : Node)
    (name pattern : string) (local_path : LocalTree) (w : World E) :
  pattern ∈ exclude_pattern settings →
  re_match_ignorecase pattern name = true →
  _should_exclude settings name w = (Ret true, w) ∧
  _upload settings fuel node name local_path w =
    (Ret true, record (Log INFO (Excluded name)) w) ∧
  filter (λ ev, is_remote_call ev = true)
    (since w (_upload settings fuel node name local_path w).2) = [].
Proof.
  intros Hin Hmatch.
  pose proof (should_exclude_static name w
                (matches_any_elem _ _ _ Hin Hmatch)) as Hexcluded.
  pose proof (upload_excluded fuel node name local_path w w Hexcluded) as Hrun.
  split; [done|]. split; [done|]. rewrite Hrun. simpl.
  rewrite (since_app w _ [Log INFO (Excluded name)]); reflexivity.
Qed.

(** C9. The exclusion check comes before the existence check.  When
    [_should_exclude] answers [True] for a name, [_upload] returns [True]
    whatever is on disk, also when nothing is; and whenever [_upload]
    logs "cannot upload non-exist path" and returns [False] for a path
    with nothing on disk, [_should_exclude] had answered [False]. *)
Theorem exclusion_precedes_existence (fuel : nat) (node : Node)
    (name : string) (w w1 : World E) :
  _should_exclude settings name w = (Ret true, w1) →
  (∀ local_path,
     _upload settings fuel node name local_path w =
     (Ret true, record (Log INFO (Excluded name)) w1)) ∧
  (∀ w0 w0',
     _upload settings fuel node name Absent w0 = (Ret false, w0') →
     ∃ w2, _should_exclude settings name w0 = (Ret false, w2) ∧
           w0' = record (Log WARNING (NonExistPath name)) w2).
Proof.
  intros Hexcluded. split.
  - intros local_path. by apply upload_excluded.
  - intros w0 w0'. simpl. rewrite run_bind.
    destruct (_should_exclude settings name w0) as [[[|]|e|] w2]; simpl;
      intros Hrun; try discriminate.
    exists w2. split; [done|]. unfold_monad. congruence.
Qed.

End Exclusion.

(** ** [upload_torrent] without items *)

Section EmptyTorrent.

Context {E : Type} {ext : Externals E}.
Variable settings : Settings.

(** C10. [upload_torrent] with no item, a key that is not active, a sync
    that returns and a target path that resolves to a node, returns
    [True]; it has made the sync and the lookup of the target and nothing
    else, and the registry is as before. *)
Theorem empty_torrent_succeeds (fuel : nat) (remote_path torrent_id : string)
    (torrent_root : string → LocalTree) (w : World E)
    (count : nat) (node : Node) (e1 e2 : E) :
  torrent_id ∉ _jobs w →
  sync (remote w) = (Ok count, e1) →
  get_node_by_path remote_path e1 = (Ok (Some node), e2) →
  upload_torrent settings fuel remote_path torrent_id torrent_root [] w =
  (Ret true,
   {| _jobs := _jobs w; remote := e2;
      trace := trace w ++ [Sync; Log INFO (SyncCount count);
                           GetNodeByPath remote_path] |}).
Proof.
  intros Hfree Hsync Hnode. unfold upload_torrent.
  destruct (decide (torrent_id ∈ _jobs w)) as [|_]; [done|].
  unfold job_guard, _sync. unfold_monad. simpl.
  rewrite Hsync. simpl. rewrite Hnode. simpl.
  f_equal. unfold with_jobs. simpl. f_equal.
  - by rewrite add_then_discard, discard_absent.
  - rewrite <- !app_assoc. reflexivity.
Qed.

End EmptyTorrent.

(** ** Computations that come to an end *)

Section Finishing.

Context {E : Type} {ext : Externals E}.

Lemma finishes_ret {A} (a : A) : finishes (mret a : M E A).
Proof. done. Qed.

Lemma finishes_bind {A B} (m : M E A) (k : A → M E B) :
  finishes m → (∀ a, finishes (k a)) → finishes (m ≫= k).
Proof.
  intros Hm Hk w. rewrite run_bind. specialize (Hm w).
  destruct (m w) as [[a|e|] w1]; simpl in *; [apply Hk|done..].
Qed.

Lemma finishes_log level msg : finishes (log level msg : M E unit).
Proof. done. Qed.

Lemma finishes_call {A} ev (op : E → Reply A * E) : finishes (call ev op).
Proof. intros w. unfold call. by destruct (op (remote w)) as [[a|e] e']. Qed.

Lemma finishes_or_else block rest :
  finishes block → finishes rest → finishes (or_else block rest : M E bool).
Proof.
  intros Hblock Hrest. apply finishes_bind; [done|].
  intros [b|]; [apply finishes_ret | done].
Qed.

Lemma finishes_upload_file node file_name content :
  finishes (_upload_file node file_name content).
Proof.
  unfold _upload_file, _verify_remote_file, returned, fall_through.
  repeat first
    [ apply finishes_ret | apply finishes_log | apply finishes_call
    | apply finishes_bind; [|intros ?] | apply finishes_or_else
    | case_match ].
Qed.

Lemma finishes_try {A} (m : M E A) : finishes m → finishes (try m).
Proof.
  intros Hm w. specialize (Hm w). unfold try.
  by destruct (m w) as [[a|e|] w1].
Qed.

Lemma finishes_sync : finishes (_sync : M E unit).
Proof.
  unfold _sync. apply finishes_bind; [apply finishes_call|].
  intros count. apply finishes_log.
Qed.

Lemma finishes_retry_loop n (attempt : M E bool) :
  finishes attempt → finishes (retry_loop n attempt).
Proof.
  intros Hattempt. induction n as [|n IH]; simpl.
  - apply finishes_bind; [apply finishes_log|]. intros _. apply finishes_ret.
  - apply finishes_bind; [by apply finishes_try|].
    intros [ok|e]; [apply finishes_ret|].
    apply finishes_bind; [apply finishes_log|]. intros _.
    apply finishes_bind; [apply finishes_sync|]. intros _. exact IH.
Qed.

End Finishing.

(** ** Uploading one file *)

Section OneFile.

Context {E : Type} {ext : Externals E}.

Lemma count_events_app p evs1 evs2 :
  count_events p (evs1 ++ evs2) = count_events p evs1 + count_events p evs2.
Proof. unfold count_events. by rewrite filter_app, length_app. Qed.

Lemma count_events_none p evs :
  Forall (λ ev, p ev = false) evs → count_events p evs = 0.
Proof.
  unfold count_events. induction 1 as [|ev evs Hev _ IH]; [done|].
  rewrite filter_cons_False; [done|]. by rewrite Hev.
Qed.


Lemma upload_file_one_attempt node file_name content :
  one_attempt (_upload_file node file_name content).
Proof.
  intros w.
  unfold _upload_file, _verify_remote_file, absent_or_trashed.
  unfold_monad.
  repeat
    (simpl;
     match goal with
     | |- context [match ?op (remote ?w0) with _ => _ end] =>
         destruct (op (remote w0)) as [[?|?] ?]
     | |- context [match ?op ?e0 with _ => _ end] =>
         destruct (op e0) as [[?|?] ?]
     | |- context [match ?x with Some _ => _ | None => _ end] => destruct x
     | |- context [if ?b then _ else _] => destruct b eqn:?
     end);
    simpl; rewrite <- ?app_assoc; simpl;
    (eexists; split; [reflexivity|]); split; reflexivity.
Qed.

Lemma retry_loop_step (attempt : M E bool) n (w : World E) :
  retry_loop (S n) attempt w =
  match attempt w with
  | (Ret ok, w1) => (Ret ok, w1)
  | (Raise e, w1) =>
      match _sync (record (Log EXCEPTION (RetryUploadFile e)) w1) with
      | (Ret _, w2) => retry_loop n attempt w2
      | (Raise e', w2) => (Raise e', w2)
      | (Unfinished, w2) => (Unfinished, w2)
      end
  | (Unfinished, w1) => (Unfinished, w1)
  end.
Proof.
  simpl. unfold mbind, M_bind, try, log.
  destruct (attempt w) as [[ok|e|] w1]; reflexivity.
Qed.

Lemma retry_loop_rounds (attempt : M E bool) k n (w w1 : World E) :
  failed_rounds attempt k w = Some w1 →
  retry_loop (k + n) attempt w = retry_loop n attempt w1.
Proof.
  revert w. induction k as [|k IH]; intros w.
  - by intros [= ->].
  - change (S k + n) with (S (k + n)). rewrite retry_loop_step. simpl.
    destruct (attempt w) as [[ok|e|] w2]; try discriminate.
    destruct (_sync _) as [[[]|e'|] w3]; try discriminate.
    apply IH.
Qed.

Lemma retry_loop_result (attempt : M E bool) n (w : World E) ok w1 :
  attempt w = (Ret ok, w1) → retry_loop (S n) attempt w = (Ret ok, w1).
Proof. intros Hattempt. by rewrite retry_loop_step, Hattempt. Qed.

Lemma sync_events (w : World E) :
  ∃ evs, trace (_sync w).2 = trace w ++ Sync :: evs ∧
         Forall (λ ev, is_attempt_start ev = false) evs ∧
         Forall (λ ev, is_sync ev = false) evs.
Proof.
  unfold _sync. unfold_monad. destruct (sync (remote w)) as [[count|e] e']; simpl.
  - exists [Log INFO (SyncCount count)]. rewrite <- app_assoc.
    repeat split; by repeat constructor.
  - exists []. repeat split; by repeat constructor.
Qed.

Lemma failed_rounds_events (attempt : M E bool) k (w w1 : World E) :
  one_attempt attempt →
  failed_rounds attempt k w = Some w1 →
  ∃ evs, trace w1 = trace w ++ evs ∧
         count_events is_attempt_start evs = k ∧
         count_events is_sync evs = k.
Proof.
  intros Hattempt. revert w. induction k as [|k IH]; intros w; simpl.
  - intros [= ->]. exists []. by rewrite app_nil_r.
  - destruct (Hattempt w) as (evs1 & Htrace1 & Hstart1 & Hsync1).
    destruct (attempt w) as [[ok|e|] w2]; try discriminate. simpl in Htrace1.
    destruct (sync_events (record (Log EXCEPTION (RetryUploadFile e)) w2))
      as (evs2 & Htrace2 & Hstart2 & Hsync2).
    destruct (_sync _) as [[[]|e'|] w3]; try discriminate. simpl in Htrace2.
    intros Hrounds. destruct (IH _ Hrounds) as (evs3 & Htrace3 & Hstart3 & Hsync3).
    exists (evs1 ++ Log EXCEPTION (RetryUploadFile e) :: Sync :: evs2 ++ evs3).
    split.
    + rewrite Htrace3, Htrace2. simpl. rewrite Htrace1.
      rewrite <- !app_assoc. reflexivity.
    + rewrite !count_events_app.
      change (Log EXCEPTION (RetryUploadFile e) :: Sync :: evs2 ++ evs3)
        with ([Log EXCEPTION (RetryUploadFile e); Sync] ++ evs2 ++ evs3).
      rewrite !count_events_app, Hstart1, Hsync1, Hstart3, Hsync3.
      rewrite (count_events_none _ _ Hstart2), (count_events_none _ _ Hsync2).
      split; reflexivity.
Qed.

Lemma retry_loop_bound (attempt : M E bool) n (w : World E) :
  one_attempt attempt →
  ∃ evs, trace (retry_loop n attempt w).2 = trace w ++ evs ∧
         count_events is_attempt_start evs ≤ n.
Proof.
  intros Hattempt. revert w. induction n as [|n IH]; intros w.
  - exists [Log ERROR (TriedUpload RETRY_TIMES)]. split; [reflexivity|].
    cbv. lia.
  - rewrite retry_loop_step.
    destruct (Hattempt w) as (evs1 & Htrace1 & Hstart1 & _).
    destruct (attempt w) as [[ok|e|] w1]; simpl in Htrace1;
      [exists evs1; split; [done|lia] | | exists evs1; split; [done|lia]].
    destruct (sync_events (record (Log EXCEPTION (RetryUploadFile e)) w1))
      as (evs2 & Htrace2 & Hstart2 & _).
    assert (Hround : trace (_sync (record (Log EXCEPTION (RetryUploadFile e)) w1)).2
              = trace w ++ evs1 ++ [Log EXCEPTION (RetryUploadFile e); Sync] ++ evs2).
    { rewrite Htrace2. simpl. rewrite Htrace1, <- !app_assoc. reflexivity. }
    assert (Hcount : count_events is_attempt_start
              (evs1 ++ [Log EXCEPTION (RetryUploadFile e); Sync] ++ evs2) = 1).
    { rewrite !count_events_app, Hstart1, (count_events_none _ _ Hstart2).
      reflexivity. }
    destruct (_sync _) as [[[]|e'|] w2]; simpl in Hround;
      [| exists (evs1 ++ [Log EXCEPTION (RetryUploadFile e); Sync] ++ evs2);
         split; [exact Hround | rewrite Hcount; lia] ..].
    destruct (IH w2) as (evs3 & Htrace3 & Hstart3).
    exists ((evs1 ++ [Log EXCEPTION (RetryUploadFile e); Sync] ++ evs2) ++ evs3).
    split.
    + rewrite Htrace3, Hround, <- !app_assoc. reflexivity.
    + rewrite count_events_app, Hcount. lia.
Qed.

Lemma retry_loop_escape (attempt : M E bool) n (w w' : World E) e :
  retry_loop n attempt w = (Raise e, w') →
  ∃ j wj e0 wj',
    j < n ∧ failed_rounds attempt j w = Some wj ∧
    attempt wj = (Raise e0, wj') ∧
    _sync (record (Log EXCEPTION (RetryUploadFile e0)) wj') = (Raise e, w').
Proof.
  revert w. induction n as [|n IH]; intros w; [discriminate|].
  rewrite retry_loop_step.
  destruct (attempt w) as [[ok|e0|] w1] eqn:Hattempt; try discriminate.
  destruct (_sync _) as [[[]|e'|] w2] eqn:Hsync; try discriminate.
  - intros Hrest. destruct (IH _ Hrest) as (j & wj & ej & wj' & Hj & Hrounds & Hlast).
    exists (S j), wj, ej, wj'. split; [lia|]. split; [|done].
    simpl. by rewrite Hattempt, Hsync.
  - intros [= -> ->]. exists 0, w, e0, w1. split; [lia|]. by split.
Qed.

Lemma retry_loop_returned (attempt : M E bool) n (w w' : World E) ok :
  retry_loop n attempt w = (Ret ok, w') →
  (∃ j wj, j < n ∧ failed_rounds attempt j w = Some wj ∧
           attempt wj = (Ret ok, w')) ∨
  (ok = false ∧
   ∃ wn, failed_rounds attempt n w = Some wn ∧
         w' = record (Log ERROR (TriedUpload RETRY_TIMES)) wn).
Proof.
  revert w. induction n as [|n IH]; intros w.
  - intros [= <- <-]. right. split; [done|]. by exists w.
  - rewrite retry_loop_step.
    destruct (attempt w) as [[ok0|e0|] w1] eqn:Hattempt; try discriminate.
    + intros [= -> ->]. left. exists 0, w. split; [lia|]. by split.
    + destruct (_sync _) as [[[]|e'|] w2] eqn:Hsync; try discriminate.
      intros Hrest.
      destruct (IH _ Hrest) as [(j & wj & Hj & Hrounds & Hlast)
                               |(Hok & wn & Hrounds & Hlast)].
      * left. exists (S j), wj. split; [lia|]. split; [|done].
        simpl. by rewrite Hattempt, Hsync.
      * right. split; [done|]. exists wn. split; [|done].
        simpl. by rewrite Hattempt, Hsync.
Qed.

(** C3, amended.  [_upload_file_retry] after [k] failed rounds, each one
    an attempt that raised, the exception logged and a resync that
    returned: [k] attempts and [k] resyncs were made; with [k = 3] the
    result is [False] and nothing more is done than logging it; with
    [k < 3] the result of the next attempt, if it returns one, is the
    result of the loop.  Every run is of this kind: it comes to an end
    after at most 3 attempts; a result is the result of an attempt that
    followed fewer than 3 failed rounds, or [False] after 3 of them; and
    an exception leaves the loop only when a resync raises it, what an
    attempt raises being caught. *)
Theorem retry_budget (node : Node) (file_name : string) (content : list byte)
    (k : nat) (w w1 : World E) :
  let attempt := _upload_file node file_name content in
  let retry := _upload_file_retry node file_name content in
  failed_rounds attempt k w = Some w1 →
  k ≤ RETRY_TIMES →
  count_events is_attempt_start (since w w1) = k ∧
  count_events is_sync (since w w1) = k ∧
  (k = RETRY_TIMES →
   retry w = (Ret false, record (Log ERROR (TriedUpload RETRY_TIMES)) w1)) ∧
  (k < RETRY_TIMES → ∀ ok w2,
   attempt w1 = (Ret ok, w2) →
   retry w = (Ret ok, w2) ∧
   count_events is_attempt_start (since w w2) = S k ∧
   count_events is_sync (since w w2) = k) ∧
  (retry w).1 ≠ Unfinished ∧
  count_events is_attempt_start (since w (retry w).2) ≤ RETRY_TIMES ∧
  (∀ ok w', retry w = (Ret ok, w') →
   (∃ j wj, j < RETRY_TIMES ∧ failed_rounds attempt j w = Some wj ∧
            attempt wj = (Ret ok, w')) ∨
   (ok = false ∧
    ∃ w3, failed_rounds attempt RETRY_TIMES w = Some w3 ∧
          w' = record (Log ERROR (TriedUpload RETRY_TIMES)) w3)) ∧
  (∀ e w', retry w = (Raise e, w') →
   ∃ j wj e0 wj',
     j < RETRY_TIMES ∧ failed_rounds attempt j w = Some wj ∧
     attempt wj = (Raise e0, wj') ∧
     _sync (record (Log EXCEPTION (RetryUploadFile e0)) wj') = (Raise e, w')).
Proof.
  intros attempt retry Hrounds Hk.
  pose proof (upload_file_one_attempt node file_name content) as Hattempt.
  destruct (failed_rounds_events _ _ _ _ Hattempt Hrounds)
    as (evs & Htrace & Hstart & Hsync).
  rewrite (since_app _ _ _ Htrace).
  split; [done|]. split; [done|]. split; [|split; [|split; [|split; [|split]]]].
  - intros ->. unfold retry, _upload_file_retry.
    change RETRY_TIMES with (RETRY_TIMES + 0) at 1.
    by rewrite (retry_loop_rounds _ _ _ _ _ Hrounds).
  - intros Hlt ok w2 Hok. unfold retry, _upload_file_retry.
    replace RETRY_TIMES with (k + S (RETRY_TIMES - S k)) by lia.
    rewrite (retry_loop_rounds _ _ _ _ _ Hrounds).
    split; [by apply retry_loop_result|].
    destruct (Hattempt w1) as (evs1 & Htrace1 & Hstart1 & Hsync1).
    fold attempt in Htrace1. rewrite Hok in Htrace1. simpl in Htrace1.
    rewrite (since_app w w2 (evs ++ evs1)).
    + rewrite !count_events_app. lia.
    + by rewrite Htrace1, Htrace, <- app_assoc.
  - apply finishes_retry_loop, finishes_upload_file.
  - destruct (retry_loop_bound attempt RETRY_TIMES w Hattempt)
      as (evs1 & Htrace1 & Hstart1).
    unfold retry, _upload_file_retry. fold attempt.
    by rewrite (since_app _ _ _ Htrace1).
  - intros ok w'. apply retry_loop_returned.
  - intros e w'. apply retry_loop_escape.
Qed.

Lemma upload_file_already_uploaded node file_name content (w : World E) :
  already_uploaded node file_name content (remote w) →
  ∃ path e',
    _upload_file node file_name content w =
    (Ret true,
     {| _jobs := _jobs w; remote := e';
        trace := trace w ++ [GetPath node;
                             GetNodeByNameFromParent file_name node;
                             GetHasher;
                             Log INFO (AlreadyExists (join path file_name))] |}).
Proof.
  unfold already_uploaded. intros Huploaded.
  destruct (get_path node (remote w)) as [[path|?] e1] eqn:Hpath; [|done].
  destruct (get_node_by_name_from_parent file_name node e1)
    as [[[child|]|?] e2] eqn:Hchild; try done.
  destruct Huploaded as (Htrashed & Hfolder & Hhash).
  destruct (get_hasher e2) as [[hasher|?] e3] eqn:Hhasher; [|done].
  exists path, e3.
  unfold _upload_file, _verify_remote_file, absent_or_trashed. unfold_monad.
  simpl. rewrite Hpath. simpl. rewrite Hchild, Htrashed, Hfolder. simpl.
  rewrite Hhasher, Hhash, String.eqb_refl. unfold record. simpl.
  rewrite <- !app_assoc. reflexivity.
Qed.

Lemma nothing_written_when_already_uploaded node file_name content (w : World E) :
  already_uploaded node file_name content (remote w) →
  _upload_file_retry node file_name content w =
    _upload_file node file_name content w ∧
  (_upload_file node file_name content w).1 = Ret true ∧
  filter (λ ev, is_remote_write ev = true)
    (since w (_upload_file node file_name content w).2) = [].
Proof.
  intros Huploaded.
  destruct (upload_file_already_uploaded _ _ _ _ Huploaded) as (path & e' & Hrun).
  split; [|split].
  - unfold _upload_file_retry. rewrite Hrun. by apply retry_loop_result.
  - by rewrite Hrun.
  - rewrite Hrun.
    rewrite (since_app w _ [GetPath node;
                            GetNodeByNameFromParent file_name node;
                            GetHasher;
                            Log INFO (AlreadyExists (join path file_name))]);
      reflexivity.
Qed.

(** C4. When the parent's path resolves, the lookup finds a child that is
    neither trashed nor a folder and that child's hash is the hash of the
    local file, the upload of the file returns [True] in its first attempt
    and none of its events is a remote write (no upload, no folder
    creation, no trash).  Uploading the file once more, while it still
    counts as uploaded, gives [True] again without a remote write. *)
Theorem uploaded_file_is_not_uploaded_again (node : Node) (file_name : string)
    (content : list byte) (w : World E) :
  already_uploaded node file_name content (remote w) →
  let first := _upload_file_retry node file_name content w in
  first = _upload_file node file_name content w ∧
  first.1 = Ret true ∧
  filter (λ ev, is_remote_write ev = true) (since w first.2) = [] ∧
  (already_uploaded node file_name content (remote first.2) →
   let second := _upload_file_retry node file_name content first.2 in
   second.1 = Ret true ∧
   filter (λ ev, is_remote_write ev = true) (since first.2 second.2) = []).
Proof.
  intros Huploaded first.
  destruct (nothing_written_when_already_uploaded _ _ _ _ Huploaded)
    as (Hretry & Hresult & Hwrites).
  fold first in Hretry. rewrite <- Hretry in Hresult, Hwrites.
  split; [done|]. split; [done|]. split; [done|].
  intros Hagain second.
  destruct (nothing_written_when_already_uploaded _ _ _ _ Hagain)
    as (Hretry' & Hresult' & Hwrites').
  fold second in Hretry'. rewrite <- Hretry' in Hresult', Hwrites'.
  by split.
Qed.

Lemma upload_file_hash_mismatch where_ node file_name content (w : World E) :
  hash_mismatch where_ node file_name content (remote w) →
  ∃ w' evs,
    _upload_file node file_name content w = (Ret false, w') ∧
    trace w' = trace w ++ evs ∧
    count_events is_attempt_start evs = 1 ∧
    count_events is_sync evs = 0 ∧
    count_events is_upload evs =
      match where_ with OnExisting => 0 | AfterUpload => 1 end.
Proof.
  unfold hash_mismatch. intros Hmismatch.
  destruct (get_path node (remote w)) as [[path|?] e1] eqn:Hpath; [|done].
  destruct (get_node_by_name_from_parent file_name node e1)
    as [[found|?] e2] eqn:Hfound; [|done].
  unfold _upload_file, _verify_remote_file. unfold_monad.
  simpl. rewrite Hpath. simpl. rewrite Hfound. simpl.
  destruct where_.
  - destruct found as [child|]; [|done].
    destruct Hmismatch as (Htrashed & Hfolder & Hhash).
    destruct (get_hasher e2) as [[hasher|?] e3] eqn:Hhasher; [|done].
    apply String.eqb_neq in Hhash.
    rewrite Htrashed, Hfolder. simpl. rewrite Hhasher, Hhash.
    unfold record. simpl.
    eexists _, _. split; [reflexivity|]. simpl. rewrite <- !app_assoc.
    split; [reflexivity|]. by repeat split.
  - destruct Hmismatch as (Habsent & Hmismatch).
    destruct (get_media_info file_name content e2)
      as [[media_info|?] e3] eqn:Hmedia; [|done].
    destruct (upload_from_local node file_name content media_info e3)
      as [[child|?] e4] eqn:Hupload; [|done].
    destruct (get_hasher e4) as [[hasher|?] e5] eqn:Hhasher; [|done].
    apply String.eqb_neq in Hmismatch.
    rewrite Habsent.
    destruct found as [child0|]; simpl in Habsent; rewrite ?Habsent; simpl;
      rewrite Hmedia; simpl; rewrite Hupload; simpl;
      rewrite Hhasher, Hmismatch; unfold record; simpl;
      (eexists _, _; split; [reflexivity|]); simpl; rewrite <- !app_assoc;
      (split; [reflexivity|]); by repeat split.
Qed.

(** C5. A hash mismatch, found on the child the lookup returns or on the
    node a fresh upload returns, makes [_upload_file_retry] return
    [False] with the first attempt's result: one attempt, no resync, and
    as many uploads as the attempt had made before the mismatch (none on
    an existing file, the one upload otherwise). *)
Theorem hash_mismatch_is_final (where_ : Mismatch) (node : Node)
    (file_name : string) (content : list byte) (w : World E) :
  hash_mismatch where_ node file_name content (remote w) →
  let run := _upload_file_retry node file_name content w in
  run = _upload_file node file_name content w ∧
  run.1 = Ret false ∧
  count_events is_attempt_start (since w run.2) = 1 ∧
  count_events is_sync (since w run.2) = 0 ∧
  count_events is_upload (since w run.2) =
    match where_ with OnExisting => 0 | AfterUpload => 1 end.
Proof.
  intros Hmismatch run.
  destruct (upload_file_hash_mismatch _ _ _ _ _ Hmismatch)
    as (w' & evs & Hrun & Htrace & Hstart & Hsync & Hupload).
  assert (Hretry : run = (Ret false, w')).
  { unfold run, _upload_file_retry. by apply retry_loop_result. }
  rewrite Hretry, Hrun. simpl. rewrite (since_app _ _ _ Htrace).
  by repeat split.
Qed.

End OneFile.



(** ** Uploading a directory *)

Section Directory.

Context {E : Type} {ext : Externals E}.
Variable settings : Settings.

Lemma for_all_ok_run {A} (body : A → M E bool) complaint xs all_ok
    (w w' : World E) oks :
  run_entries body complaint xs w = Some (oks, w') →
  for_all_ok body complaint xs all_ok w = (Ret (all_ok && forallb id oks), w') ∧
  length oks = length xs.
Proof.
  revert all_ok w oks. induction xs as [|x xs IH]; intros all_ok w oks; simpl.
  - intros [= <- <-]. by rewrite andb_true_r.
  - rewrite run_bind.
    destruct (body x w) as [[ok|e|] w1]; try discriminate.
    destruct (run_entries body complaint xs _) as [[oks' w2]|] eqn:Hrest;
      try discriminate.
    intros [= <- <-]. destruct ok; simpl.
    + destruct (IH all_ok _ _ Hrest) as [-> ->]. done.
    + unfold_monad. destruct (IH false _ _ Hrest) as [-> ->].
      by rewrite andb_false_r.
Qed.

Lemma forallb_id_false (oks : list bool) :
  forallb id oks = false ↔ false ∈ oks.
Proof.
  induction oks as [|[|] oks IH]; simpl.
  - split; [done|]. by intros ?%elem_of_nil.
  - rewrite IH. split; [by right|]. by intros [?|?]%elem_of_cons.
  - split; [by left|done].
Qed.

(** C6, amended.  After the first half of [_upload_directory]: when the
    remote directory was neither found nor created the result is [False]
    and no entry is visited; when it was, and the upload of every entry
    in turn returns a boolean, the result is the conjunction of these
    booleans, one for each entry of the directory, and it is [False]
    exactly when one of them is. *)
Theorem directory_result_is_conjunction (fuel : nat) (node : Node)
    (dir_name : string) (entries : list (string * LocalTree))
    (w w1 : World E) (found : option Node) :
  find_or_create fuel node dir_name w = (Ret found, w1) →
  match found with
  | None => _upload_directory settings fuel node dir_name entries w = (Ret false, w1)
  | Some child_node =>
      ∀ oks w2,
        run_entries
          (λ child_path, _upload settings fuel child_node child_path.1 child_path.2)
          (λ child_path, CannotUpload child_path.1) entries w1 = Some (oks, w2) →
        _upload_directory settings fuel node dir_name entries w =
          (Ret (forallb id oks), w2) ∧
        length oks = length entries ∧
        (forallb id oks = false ↔ false ∈ oks)
  end.
Proof.
  intros Hfound. unfold _upload_directory, upload_directory_with.
  rewrite (run_bind_ret _ _ _ _ _ Hfound).
  destruct found as [child_node|]; [|done].
  intros oks w2 Hentries.
  destruct (for_all_ok_run _ _ _ true _ _ _ Hentries) as [Hrun Hlength].
  split; [exact Hrun|]. split; [exact Hlength|]. apply forallb_id_false.
Qed.

End Directory.

(** ** What reaches the caller *)

Section Propagation.

Context {E : Type} {ext : Externals E}.
Variable settings : Settings.


Lemma returns_ret {A} (a : A) : returns (mret a : M E A).
Proof. intros w. by eexists _, _. Qed.

Lemma returns_bind {A B} (m : M E A) (k : A → M E B) :
  returns m → (∀ a, returns (k a)) → returns (m ≫= k).
Proof.
  intros Hm Hk w. destruct (Hm w) as (a & w1 & Hrun).
  rewrite (run_bind_ret _ _ _ _ _ Hrun). apply Hk.
Qed.

Lemma returns_log level msg : returns (log level msg : M E unit).
Proof. intros w. by eexists _, _. Qed.

Lemma returns_call {A} ev (op : E → Reply A * E) :
  answers op → returns (call ev op).
Proof.
  intros Hop w. destruct (Hop (remote w)) as (a & e' & Hanswer).
  eexists _, _. by apply run_call_ok.
Qed.

Lemma returns_try {A} (m : M E A) : finishes m → returns (try m).
Proof.
  intros Hm w. specialize (Hm w). unfold try.
  destruct (m w) as [[a|e|] w1]; [by eexists _, _..|done].
Qed.

Lemma trace_grows_refl (w : World E) : trace_grows w w.
Proof. exists []. by rewrite app_nil_r. Qed.

Lemma trace_grows_trans (w1 w2 w3 : World E) :
  trace_grows w1 w2 → trace_grows w2 w3 → trace_grows w1 w3.
Proof.
  intros [evs1 Hevs1] [evs2 Hevs2]. exists (evs1 ++ evs2).
  by rewrite Hevs2, Hevs1, app_assoc.
Qed.

Lemma trace_grows_step (w : World E) e' ev :
  trace_grows w {| _jobs := _jobs w; remote := e'; trace := trace w ++ [ev] |}.
Proof. by exists [ev]. Qed.

Ltac growth :=
  first [ exact trace_grows_refl | exact trace_grows_trans
        | exact trace_grows_step ].

Lemma complains_now (w : World E) level msg :
  level = ERROR ∨ level = WARNING → complains w (record (Log level msg) w).
Proof.
  intros Hlevel. exists [Log level msg], level, msg.
  split; [done|]. split; [apply list_elem_of_singleton; reflexivity | done].
Qed.

Lemma complains_later (w1 w2 w3 : World E) :
  trace_grows w1 w2 → complains w2 w3 → complains w1 w3.
Proof.
  intros [evs1 Hevs1] (evs2 & level & msg & Hevs2 & Hin & Hlevel).
  exists (evs1 ++ evs2), level, msg. split; [|split; [|done]].
  - by rewrite Hevs2, Hevs1, app_assoc.
  - apply elem_of_app. by right.
Qed.

Lemma complains_earlier (w1 w2 w3 : World E) :
  complains w1 w2 → trace_grows w2 w3 → complains w1 w3.
Proof.
  intros (evs1 & level & msg & Hevs1 & Hin & Hlevel) [evs2 Hevs2].
  exists (evs1 ++ evs2), level, msg. split; [|split; [|done]].
  - by rewrite Hevs2, Hevs1, app_assoc.
  - apply elem_of_app. by left.
Qed.

(** A loop that started with [all_ok = True] and returns [False] has
    logged the complaint about one of the items. *)
Lemma for_all_ok_complains {A} (body : A → M E bool) complaint xs all_ok
    (w w' : World E) :
  Forall (λ x, preserves trace_grows (body x)) xs →
  for_all_ok body complaint xs all_ok w = (Ret false, w') →
  all_ok = false ∨ complains w w'.
Proof.
  intros Hbody. revert all_ok w.
  induction Hbody as [|x xs Hx Hxs IH]; intros all_ok w; simpl.
  - intros [= -> _]. by left.
  - rewrite run_bind. specialize (Hx w).
    destruct (body x w) as [[[|]|e|] w1]; simpl in *; try discriminate.
    + intros Hrest. destruct (IH _ _ Hrest) as [?|Hcomplains]; [by left|].
      right. by eapply complains_later.
    + intros Hrest. right. rewrite run_bind in Hrest. simpl in Hrest.
      eapply complains_later; [exact Hx|].
      eapply complains_earlier; [by apply complains_now; left|].
      pose proof (preserves_for_all_ok trace_grows trace_grows_refl
                    trace_grows_trans trace_grows_step body complaint xs false
                    Hxs (record (Log ERROR (complaint x)) w1)) as Hgrows.
      by rewrite Hrest in Hgrows.
Qed.

(** [False] from an entry point comes with a log line of level ERROR or
    WARNING. *)
Lemma upload_path_complains fuel remote_path local_path (w w' : World E) :
  upload_path settings fuel remote_path local_path w = (Ret false, w') →
  complains w w'.
Proof.
  unfold upload_path. destruct (decide _) as [_|_].
  - intros [= <-]. apply complains_now. by right.
  - unfold job_guard.
    set (w0 := with_jobs ({[text local_path]} ∪ _jobs w) w).
    rewrite run_bind.
    pose proof (preserves_sync trace_grows trace_grows_trans trace_grows_step w0)
      as Hsync.
    destruct (_sync w0) as [[[]|e|] wa]; simpl in Hsync;
      [|intros [=]..].
    rewrite run_bind.
    pose proof (preserves_call trace_grows trace_grows_step
                  (GetNodeByPath remote_path) (get_node_by_path remote_path) wa)
      as Hnode.
    destruct (call _ _ wa) as [[[node|]|e|] wb]; simpl in Hnode;
      [| |intros [=]..].
    + rewrite run_bind.
      pose proof (preserves_upload settings trace_grows trace_grows_refl
                    trace_grows_trans trace_grows_step fuel node
                    (name local_path) (on_disk local_path) wb) as Hupload.
      destruct (_upload _ _ _ _ _ wb) as [[[|]|e|] wc]; simpl in Hupload;
        simpl; intros [= <-].
      assert (Hgrows : trace_grows w wc).
      { apply (trace_grows_trans w0 wa wc) in Hsync;
          [exact Hsync | by eapply trace_grows_trans]. }
      destruct (complains_later w wc (record (Log ERROR (UploadFailed (name local_path))) wc)
                  Hgrows (complains_now _ _ _ (or_introl eq_refl)))
        as (evs & level & msg & Hevs & Hin & Hlevel).
      by exists evs, level, msg.
    + intros [= <-].
      assert (Hgrows : trace_grows w wb) by (by apply (trace_grows_trans w0 wa wb)).
      destruct (complains_later w wb (record (Log ERROR (RemoteNotFound remote_path)) wb)
                  Hgrows (complains_now _ _ _ (or_introl eq_refl)))
        as (evs & level & msg & Hevs & Hin & Hlevel).
      by exists evs, level, msg.
Qed.

Lemma upload_torrent_complains fuel remote_path torrent_id torrent_root
    root_items (w w' : World E) :
  upload_torrent settings fuel remote_path torrent_id torrent_root root_items w
    = (Ret false, w') →
  complains w w'.
Proof.
  unfold upload_torrent. destruct (decide _) as [_|_].
  - intros [= <-]. apply complains_now. by right.
  - unfold job_guard.
    set (w0 := with_jobs ({[torrent_id]} ∪ _jobs w) w).
    rewrite run_bind.
    pose proof (preserves_sync trace_grows trace_grows_trans trace_grows_step w0)
      as Hsync.
    destruct (_sync w0) as [[[]|e|] wa]; simpl in Hsync;
      [|intros [=]..].
    rewrite run_bind.
    pose proof (preserves_call trace_grows trace_grows_step
                  (GetNodeByPath remote_path) (get_node_by_path remote_path) wa)
      as Hnode.
    assert (Hgrows : ∀ wb, trace_grows wa wb → trace_grows w wb)
      by (intros wb; by apply (trace_grows_trans w0 wa wb)).
    destruct (call _ _ wa) as [[[node|]|e|] wb]; simpl in Hnode;
      [| |intros [=]..].
    + destruct (for_all_ok _ _ _ _ wb) as [[[|]|e|] wc] eqn:Hitems;
        intros [= <-].
      apply for_all_ok_complains in Hitems.
      * destruct Hitems as [?|Hcomplains]; [done|].
        destruct (complains_later w wb wc (Hgrows wb Hnode) Hcomplains)
          as (evs & level & msg & Hevs & Hin & Hlevel).
        by exists evs, level, msg.
      * apply Forall_forall. intros item _.
        apply preserves_upload; growth.
    + intros [= <-].
      destruct (complains_later w wb (record (Log ERROR (RemoteNotFound remote_path)) wb)
                  (Hgrows wb Hnode) (complains_now _ _ _ (or_introl eq_refl)))
        as (evs & level & msg & Hevs & Hin & Hlevel).
      by exists evs, level, msg.
Qed.

Section Healthy.

Hypothesis Hanswer : unguarded_calls_answer.

Ltac returns :=
  repeat first
    [ apply returns_ret | apply returns_log
    | apply returns_call; apply Hanswer
    | apply returns_bind; [|intros ?]
    | case_match ].

Lemma returns_sync : returns (_sync : M E unit).
Proof. unfold _sync. returns. Qed.

Lemma returns_should_exclude name : returns (_should_exclude settings name).
Proof. unfold _should_exclude. returns. Qed.

(** The retry loop turns whatever an attempt raises into a result. *)
Lemma returns_retry_loop n (attempt : M E bool) :
  finishes attempt → returns (retry_loop n attempt).
Proof.
  intros Hattempt. induction n as [|n IH]; simpl.
  - returns.
  - apply returns_bind; [by apply returns_try|].
    intros [ok|e]; [returns|].
    apply returns_bind; [returns|]. intros _.
    apply returns_bind; [apply returns_sync|]. intros _. exact IH.
Qed.

Lemma returns_wait_for_path fuel child_node :
  0 < fuel → returns (wait_for_path fuel child_node).
Proof.
  intros Hfuel. destruct fuel as [|fuel]; [lia|]. simpl. intros w.
  destruct (get_path_answers Hanswer child_node (remote w)) as (path & e' & Hpath).
  rewrite run_bind. unfold try.
  rewrite (run_call_ok _ _ _ _ _ Hpath). by eexists _, _.
Qed.

Lemma returns_find_or_create fuel node dir_name :
  0 < fuel → returns (find_or_create fuel node dir_name).
Proof.
  intros Hfuel. unfold find_or_create, create_remote_directory.
  repeat first
    [ apply returns_ret | apply returns_log
    | apply returns_call; apply Hanswer
    | by apply returns_wait_for_path
    | apply returns_bind; [|intros ?]
    | case_match ].
Qed.

Lemma returns_for_all_ok {A} (body : A → M E bool) complaint xs all_ok :
  Forall (λ x, returns (body x)) xs →
  returns (for_all_ok body complaint xs all_ok).
Proof.
  intros Hbody. revert all_ok.
  induction Hbody as [|x xs Hx _ IH]; intros all_ok; simpl; [returns|].
  apply returns_bind; [done|]. intros [|]; simpl; [apply IH|].
  apply returns_bind; [returns|]. intros _. apply IH.
Qed.

Lemma returns_upload fuel node name local_path :
  0 < fuel → returns (_upload settings fuel node name local_path).
Proof.
  intros Hfuel. revert node name.
  induction local_path as [|content|entries IH] using LocalTree_ind;
    intros node name; simpl;
    (apply returns_bind; [apply returns_should_exclude|]);
    intros [|]; try by returns.
  - apply returns_retry_loop, finishes_upload_file.
  - unfold upload_directory_with.
    apply returns_bind; [by apply returns_find_or_create|].
    intros [child_node|]; [|returns].
    apply returns_for_all_ok.
    eapply Forall_impl; [exact IH|]. intros entry Hentry. apply Hentry.
Qed.

Lemma returns_job_guard {A} token (body : M E A) :
  returns body → returns (job_guard token body).
Proof.
  intros Hbody w. unfold job_guard.
  destruct (Hbody (with_jobs ({[token]} ∪ _jobs w) w)) as (a & w' & ->).
  by eexists _, _.
Qed.

Lemma returns_upload_path fuel remote_path local_path :
  0 < fuel → returns (upload_path settings fuel remote_path local_path).
Proof.
  intros Hfuel w. unfold upload_path.
  destruct (decide _); [by eexists _, _|].
  apply returns_job_guard.
  apply returns_bind; [apply returns_sync|]. intros _.
  apply returns_bind; [returns|]. intros [node|]; [|returns].
  apply returns_bind; [by apply returns_upload|]. intros [|]; simpl; returns.
Qed.

Lemma returns_upload_torrent fuel remote_path torrent_id torrent_root root_items :
  0 < fuel →
  returns (upload_torrent settings fuel remote_path torrent_id torrent_root
             root_items).
Proof.
  intros Hfuel w. unfold upload_torrent.
  destruct (decide _); [by eexists _, _|].
  apply returns_job_guard.
  apply returns_bind; [apply returns_sync|]. intros _.
  apply returns_bind; [returns|]. intros [node|]; [|returns].
  apply returns_for_all_ok, Forall_forall. intros item _.
  by apply returns_upload.
Qed.

End Healthy.


End Propagation.

(** ** The uploader on the scripted collaborator *)

Module Scenario.

Import Fake.

(** The tree [local/root] against [mirrored]: [a.txt] is there already,
    [c.txt] is there with another hash, [b.txt] is new.  The request
    fails, the one transfer is that of [b.txt], and the registry is empty
    afterwards. *)
Example mirror_with_one_mismatch :
  let run := upload_path (ext := externals reliable) no_settings 1 "/remote"
               local_root (start ∅ mirrored) in
  run.1 = Ret false ∧
  filter (λ ev, is_upload ev = true) (trace run.2) =
    [UploadFromLocal (folder "/remote/root") "b.txt"] ∧
  elements (_jobs run.2) = [].
Proof. vm_compute. repeat split. Qed.

(** Two transfers that raise and a third that succeeds: three attempts,
    two resyncs, [True]. *)
Example third_transfer_succeeds :
  let w := start ∅ empty_remote in
  let run := _upload_file_retry (ext := externals two_transfers_fail) root
               "a.txt" (bytes "aaa") w in
  run.1 = Ret true ∧
  count_events is_attempt_start (since w run.2) = 3 ∧
  count_events is_sync (since w run.2) = 2.
Proof. vm_compute. repeat split. Qed.

(** A target path that does not resolve: [False], and the local tree is
    not looked at. *)
Example missing_target :
  let run := upload_path (ext := externals reliable) no_settings 1 "/nowhere"
               local_root (start ∅ empty_remote) in
  run.1 = Ret false ∧
  trace run.2 = [Sync; Log INFO (SyncCount 0); GetNodeByPath "/nowhere";
                 Log ERROR (RemoteNotFound "/nowhere")].
Proof. vm_compute. repeat split. Qed.

Lemma duplicate_request_is_refused_witness :
  let w := start {["local/root"]} empty_remote in
  upload_path (ext := externals reliable) no_settings 1 "/remote" local_root w =
  (Ret false, record (Log WARNING (StillUploading "local/root")) w).
Proof.
  intros w.
  refine (proj1 (duplicate_request_is_refused (ext := externals reliable)
                   no_settings 1 "/remote" local_root (λ _, Absent) [] w _)).
  simpl. set_solver.
Defined.

(** C2, as stated, fails on a duplicate request: it completes, returning
    [False], and its key is still in the registry. *)
Lemma duplicate_request_leaves_key_registered :
  let w := start {["local/root"]} empty_remote in
  let run := upload_path (ext := externals reliable) no_settings 1 "/remote"
               local_root w in
  run.1 = Ret false ∧ "local/root" ∈ _jobs (run.2).
Proof.
  intros w run. unfold run, upload_path.
  destruct (decide (text local_root ∈ _jobs w)) as [Hactive|Hfree].
  - split; [reflexivity | exact Hactive].
  - exfalso. apply Hfree. simpl. set_solver.
Qed.

Lemma registry_entry_is_released_witness :
  let w := start ∅ empty_remote in
  released "local/root" w
    (upload_path (ext := externals reliable) no_settings 1 "/remote"
       local_root w).
Proof.
  intros w.
  refine (proj1 (registry_entry_is_released (ext := externals reliable)
                   no_settings 1 "/remote" local_root (λ _, Absent) [] w _)).
  simpl. set_solver.
Defined.

(** C3, as stated, fails when the third resync raises: the three
    attempts raised and used up the budget, three resyncs were made, and
    the result is the exception of the last resync instead of [False]. *)
Lemma third_resync_escapes_retry_loop :
  let w := start ∅ empty_remote in
  let run := _upload_file_retry (ext := externals third_sync_fails) root
               "a.txt" (bytes "aaa") w in
  run.1 = Raise (Exn "sync") ∧
  count_events is_attempt_start (since w run.2) = 3 ∧
  count_events is_upload (since w run.2) = 3 ∧
  count_events is_sync (since w run.2) = 3.
Proof. vm_compute. repeat split. Qed.

Lemma retry_budget_witness :
  let w := start ∅ empty_remote in
  ∃ w3,
    _upload_file_retry (ext := externals transfers_fail) root "a.txt"
      (bytes "aaa") w =
    (Ret false, record (Log ERROR (TriedUpload RETRY_TIMES)) w3) ∧
    count_events is_attempt_start (since w w3) = 3 ∧
    count_events is_sync (since w w3) = 3.
Proof.
  intros w.
  destruct (failed_rounds (ext := externals transfers_fail)
              (_upload_file (ext := externals transfers_fail) root "a.txt"
                 (bytes "aaa")) 3 w) as [w3|] eqn:Hrounds;
    [|vm_compute in Hrounds; discriminate].
  exists w3.
  destruct (retry_budget (ext := externals transfers_fail) root "a.txt"
              (bytes "aaa") 3 w w3 Hrounds (le_n 3))
    as (Hstart & Hsync & Hexhausted & _).
  split; [exact (Hexhausted eq_refl)|]. split; [exact Hstart | exact Hsync].
Defined.

Lemma uploaded_file_is_not_uploaded_again_witness :
  let w := start ∅ mirrored in
  let first := _upload_file_retry (ext := externals reliable)
                 (folder "/remote/root") "a.txt" (bytes "aaa") w in
  let second := _upload_file_retry (ext := externals reliable)
                  (folder "/remote/root") "a.txt" (bytes "aaa") first.2 in
  first.1 = Ret true ∧ second.1 = Ret true ∧
  filter (λ ev, is_remote_write ev = true) (since first.2 second.2) = [].
Proof.
  intros w first second.
  assert (Hfirst : already_uploaded (ext := externals reliable)
            (folder "/remote/root") "a.txt" (bytes "aaa") (remote w)).
  { vm_compute. repeat split. }
  destruct (uploaded_file_is_not_uploaded_again (ext := externals reliable)
              (folder "/remote/root") "a.txt" (bytes "aaa") w Hfirst)
    as (_ & Hresult & _ & Hagain).
  split; [exact Hresult|]. apply Hagain.
  vm_compute. repeat split.
Defined.

Lemma hash_mismatch_is_final_witness :
  (let run := _upload_file_retry (ext := externals reliable)
                (folder "/remote/root") "c.txt" (bytes "ccc")
                (start ∅ mirrored) in
   run.1 = Ret false ∧
   count_events is_attempt_start (since (start ∅ mirrored) run.2) = 1 ∧
   count_events is_upload (since (start ∅ mirrored) run.2) = 0) ∧
  (let run := _upload_file_retry (ext := externals corrupt_transfers)
                (folder "/remote/root") "b.txt" (bytes "bbb")
                (start ∅ mirrored) in
   run.1 = Ret false ∧
   count_events is_attempt_start (since (start ∅ mirrored) run.2) = 1 ∧
   count_events is_upload (since (start ∅ mirrored) run.2) = 1).
Proof.
  split; intros run.
  - destruct (hash_mismatch_is_final (ext := externals reliable) OnExisting
                (folder "/remote/root") "c.txt" (bytes "ccc") (start ∅ mirrored))
      as (_ & Hresult & Hstart & _ & Hupload).
    { vm_compute. repeat split; discriminate. }
    by repeat split.
  - destruct (hash_mismatch_is_final (ext := externals corrupt_transfers)
                AfterUpload (folder "/remote/root") "b.txt" (bytes "bbb")
                (start ∅ mirrored))
      as (_ & Hresult & Hstart & _ & Hupload).
    { vm_compute. repeat split; discriminate. }
    by repeat split.
Defined.

(** C6, as stated, fails when the remote name is taken by a file: the
    directory upload returns [False] after the lookup, the path query and
    the error line, without visiting its one entry, although the upload
    of that entry returns [True]. *)
Lemma shadowed_directory_fails_without_visiting_entries :
  let w := start ∅ shadowed in
  let run := _upload_directory (ext := externals reliable) no_settings 1 root
               "root" [("a.txt", File (bytes "aaa"))] w in
  run.1 = Ret false ∧
  since w run.2 = [GetNodeByNameFromParent "root" root;
                   GetPath (file "/remote/root" "rrr");
                   Log ERROR (RemoteIsAFile "/remote/root")] ∧
  (_upload (ext := externals reliable) no_settings 1 root "a.txt"
     (File (bytes "aaa")) w).1 = Ret true.
Proof. vm_compute. repeat split. Qed.

Lemma directory_result_is_conjunction_witness :
  let w := start ∅ mirrored in
  let entries := [("a.txt", File (bytes "aaa")); ("c.txt", File (bytes "ccc"));
                  ("b.txt", File (bytes "bbb"))] in
  (_upload_directory (ext := externals reliable) no_settings 1 root "root"
     entries w).1 = Ret false ∧
  false ∈ [true; false; true].
Proof.
  intros w entries.
  pose (w1 := (find_or_create (ext := externals reliable) 1 root "root" w).2).
  pose (w2 := (_upload_directory (ext := externals reliable) no_settings 1 root
                 "root" entries w).2).
  assert (Hfound : find_or_create (ext := externals reliable) 1 root "root" w =
                   (Ret (Some (folder "/remote/root")), w1))
    by (vm_compute; reflexivity).
  assert (Hentries :
    run_entries
      (λ child_path, _upload (ext := externals reliable) no_settings 1
                       (folder "/remote/root") child_path.1 child_path.2)
      (λ child_path, CannotUpload child_path.1) entries w1 =
    Some ([true; false; true], w2))
    by (vm_compute; reflexivity).
  destruct (directory_result_is_conjunction (ext := externals reliable)
              no_settings 1 root "root" entries w w1
              (Some (folder "/remote/root")) Hfound [true; false; true] w2
              Hentries)
    as (Hrun & _ & Hfalse).
  split; [by rewrite Hrun | by apply Hfalse].
Defined.


Lemma reliable_calls_answer (plan : Plan) :
  failing_syncs plan = [] → paths_raise plan = false →
  (∃ rv, patterns plan = Ok rv) →
  unguarded_calls_answer (ext := externals plan).
Proof.
  intros Hsyncs Hpaths [rv Hpatterns].
  constructor; intros; intros r; simpl;
    rewrite ?Hsyncs, ?Hpaths, ?Hpatterns; by eexists _, _.
Qed.


Lemma static_exclusion_makes_no_remote_call_witness :
  let w := start ∅ empty_remote in
  _upload (ext := externals fetched_patterns) static_patterns 1 root
    "Thumbs.db" Absent w =
  (Ret true, record (Log INFO (Excluded "Thumbs.db")) w).
Proof.
  intros w.
  refine (proj1 (proj2 (static_exclusion_makes_no_remote_call
                          (ext := externals fetched_patterns) static_patterns
                          1 root "Thumbs.db" "thumbs" Absent w _ _))).
  - simpl. set_solver.
  - reflexivity.
Defined.

Lemma exclusion_precedes_existence_witness :
  let w := start ∅ empty_remote in
  (_upload (ext := externals fetched_patterns) remote_patterns 1 root
     "Thumbs.db" Absent w).1 = Ret true.
Proof.
  intros w.
  destruct (_should_exclude (ext := externals fetched_patterns) remote_patterns
              "Thumbs.db" w) as [[[|]|e|] w1] eqn:Hexcluded;
    try (vm_compute in Hexcluded; discriminate).
  destruct (exclusion_precedes_existence (ext := externals fetched_patterns)
              remote_patterns 1 root "Thumbs.db" w w1 Hexcluded) as [Hupload _].
  by rewrite (Hupload Absent).
Defined.

Lemma empty_torrent_succeeds_witness :
  let w := start ∅ empty_remote in
  (upload_torrent (ext := externals reliable) no_settings 1 "/remote"
     "torrent-1" (λ _, Absent) [] w).1 = Ret true.
Proof.
  intros w.
  erewrite (empty_torrent_succeeds (ext := externals reliable) no_settings 1
              "/remote" "torrent-1" (λ _, Absent) w 0 root);
    [reflexivity | simpl; set_solver | reflexivity | reflexivity].
Defined.

End Scenario.

(** * More of the code *)

(** ** The line buffer of [HaHEventHandler] *)

Section LineBuffer.

Import HaH.

Variable settings_upload_to : string.
Variable _download_path : string.

Lemma append_cons (c : ascii) (s t : string) :
  String c s +:+ t = String c (s +:+ t).
Proof. reflexivity. Qed.

Lemma append_empty (s : string) : s +:+ "" = s.
Proof.
  induction s as [|c s IH]; [done|]. by rewrite append_cons, IH.
Qed.

Lemma append_is_empty (a b : string) : a +:+ b = "" → b = "".
Proof. by destruct a. Qed.

Lemma endswith_newline_append (a b : string) :
  b ≠ "" → endswith_newline (a +:+ b) = endswith_newline b.
Proof.
  intros Hb. induction a as [|c a IH]; [done|]. rewrite append_cons. simpl.
  destruct (a +:+ b) as [|c' s] eqn:Hs; [|exact IH].
  by apply append_is_empty in Hs.
Qed.

Lemma endswith_newline_partial (a b : string) :
  endswith_newline a = false → endswith_newline b = false →
  endswith_newline (a +:+ b) = false.
Proof.
  intros Ha Hb. destruct b as [|c b]; [by rewrite append_empty|].
  by rewrite endswith_newline_append.
Qed.

Lemma after_literal_append (p s : string) : after_literal p (p +:+ s) = Some s.
Proof.
  induction p as [|c p IH]; [done|]. rewrite append_cons. simpl.
  by rewrite Ascii.eqb_refl.
Qed.

Lemma after_literal_inv (p s rest : string) :
  after_literal p s = Some rest → s = p +:+ rest.
Proof.
  revert s. induction p as [|c p IH]; intros s; simpl; [by intros [= ->]|].
  destruct s as [|c' s]; [done|].
  destruct (Ascii.eqb c c') eqn:Hc; [|done].
  apply Ascii.eqb_eq in Hc as ->. intros Hrest.
  by rewrite append_cons, (IH _ Hrest).
Qed.

Lemma dot_star_newline_append (group tail : string) :
  one_line group = true →
  dot_star_newline (group +:+ String newline tail) = Some (group, tail).
Proof.
  induction group as [|c group IH]; [by intros _|].
  simpl. intros [Hc Hgroup]%andb_true_iff. apply negb_true_iff in Hc.
  rewrite ?append_cons. simpl. by rewrite Hc, IH.
Qed.

Lemma dot_star_newline_inv (s group tail : string) :
  dot_star_newline s = Some (group, tail) →
  one_line group = true ∧ s = group +:+ String newline tail.
Proof.
  revert group. induction s as [|c s IH]; intros group; simpl; [done|].
  destruct (Ascii.eqb c newline) eqn:Hc.
  - apply Ascii.eqb_eq in Hc as ->. by intros [= <- <-].
  - destruct (dot_star_newline s) as [[group' tail']|]; [|done].
    intros [= <- <-]. destruct (IH group' eq_refl) as [Hgroup ->].
    simpl. by rewrite Hc, Hgroup.
Qed.

Lemma at_dollar_inv (tail : string) :
  at_dollar tail = true → tail = "" ∨ tail = String newline "".
Proof.
  destruct tail as [|c [|c' tail]]; simpl; [by left | | done].
  intros ->%Ascii.eqb_eq. by right.
Qed.

Lemma append_assoc (a b c : string) : (a +:+ b) +:+ c = a +:+ (b +:+ c).
Proof.
  induction a as [|x a IH]; [done|]. by rewrite !append_cons, IH.
Qed.

(** X1. The pattern and the text of a report are inverse to each other:
    the report of a name without newline matches and gives the name back,
    and a line that matches is the report of the name it gives, which has
    no newline, followed by at most one more newline. *)
Theorem finished_gallery_round_trip :
  (∀ name, one_line name = true → finished_gallery (report name) = Some name) ∧
  (∀ line name,
     finished_gallery line = Some name →
     one_line name = true ∧
     (line = report name ∨ line = report name +:+ String newline "")).
Proof.
  split.
  - intros name Hname. unfold finished_gallery, report.
    by rewrite after_literal_append, dot_star_newline_append.
  - intros line name. unfold finished_gallery, report.
    destruct (after_literal FINISHED line) as [rest|] eqn:Hrest; [|done].
    apply after_literal_inv in Hrest as ->.
    destruct (dot_star_newline rest) as [[group tail]|] eqn:Hgroup; [|done].
    apply dot_star_newline_inv in Hgroup as [Hgroup ->].
    destruct (at_dollar tail) eqn:Htail; [|done].
    intros [= <-]. split; [done|].
    destruct (at_dollar_inv _ Htail) as [-> | ->]; [by left|right].
    by rewrite !append_assoc.
Qed.

Lemma finished_gallery_complete (line name : string) :
  finished_gallery line = Some name → endswith_newline line = true.
Proof.
  unfold finished_gallery.
  destruct (after_literal FINISHED line) as [rest|] eqn:Hrest; [|done].
  apply after_literal_inv in Hrest as ->.
  destruct (dot_star_newline rest) as [[group tail]|] eqn:Hgroup; [|done].
  apply dot_star_newline_inv in Hgroup as [_ ->].
  destruct (at_dollar tail) eqn:Htail; [|done]. intros _.
  rewrite endswith_newline_append by (by intros ?%append_is_empty).
  rewrite endswith_newline_append by done.
  by destruct (at_dollar_inv _ Htail) as [-> | ->].
Qed.

Lemma examine_partial (line : string) :
  endswith_newline line = false →
  examine settings_upload_to _download_path line = [].
Proof.
  intros Hline. unfold examine.
  destruct (finished_gallery line) as [name|] eqn:Hmatch; [|done].
  apply finished_gallery_complete in Hmatch. congruence.
Qed.

Lemma drain_cons (line : string) (rest : list string) :
  drain settings_upload_to _download_path (line :: rest) =
  if endswith_newline line then
    (examine settings_upload_to _download_path line ++
       (drain settings_upload_to _download_path rest).1,
     (drain settings_upload_to _download_path rest).2)
  else
    match rest with
    | [] => ([], [line])
    | next :: rest' =>
        (examine settings_upload_to _download_path (line +:+ next) ++
           (drain settings_upload_to _download_path rest').1,
         (drain settings_upload_to _download_path rest').2)
    end.
Proof.
  simpl. destruct (endswith_newline line).
  - by destruct (drain settings_upload_to _download_path rest).
  - destruct rest as [|next rest']; [done|].
    by destruct (drain settings_upload_to _download_path rest').
Qed.

(** What [self._lines] may hold between two calls. *)
Lemma drain_kept (_lines : list string) :
  let holds (kept : list string) :=
    kept = [] ∨ ∃ line, kept = [line] ∧ endswith_newline line = false in
  holds (drain settings_upload_to _download_path _lines).2 ∧
  ∀ line, holds (drain settings_upload_to _download_path (line :: _lines)).2.
Proof.
  intros holds. induction _lines as [|next rest [IH1 IH2]].
  - split; [by left|]. intros line. rewrite drain_cons.
    destruct (endswith_newline line) eqn:Hline; [by left|].
    right. by exists line.
  - split; [apply IH2|]. intros line. rewrite drain_cons.
    destruct (endswith_newline line); [apply IH2 | apply IH1].
Qed.

(** X2. Whatever was buffered and whatever is pushed, [_push_lines]
    leaves [self._lines] empty or with one line that lacks its newline. *)
Theorem buffer_holds_at_most_one_partial_line (lines _lines : list string) :
  let kept := (_push_lines settings_upload_to _download_path lines _lines).2 in
  kept = [] ∨ ∃ line, kept = [line] ∧ endswith_newline line = false.
Proof. apply drain_kept. Qed.

(** X3. Lines that all end in a newline, pushed on an empty buffer, are
    each examined once and in order, and the buffer is empty afterwards. *)
Theorem complete_lines_are_examined_in_order (lines : list string) :
  Forall (λ line, endswith_newline line = true) lines →
  _push_lines settings_upload_to _download_path lines [] =
  (flat_map (examine settings_upload_to _download_path) lines, []).
Proof.
  unfold _push_lines. simpl.
  induction 1 as [|line lines Hline _ IH]; simpl; [done|].
  by rewrite Hline, IH.
Qed.

(** X4. A line that arrives in two pieces is put together: after the
    first piece, which lacks the newline, has been pushed alone and kept,
    pushing the rest of the line and more lines schedules what pushing
    the whole line and those lines at once would. *)
Theorem line_in_two_pieces_is_reassembled (a b : string) (rest : list string) :
  endswith_newline a = false →
  endswith_newline b = true →
  let first := _push_lines settings_upload_to _download_path [a] [] in
  first = ([], [a]) ∧
  _push_lines settings_upload_to _download_path (b :: rest) first.2 =
  _push_lines settings_upload_to _download_path ((a +:+ b) :: rest) [].
Proof.
  intros Ha Hb first.
  assert (Hfirst : first = ([], [a])).
  { unfold first, _push_lines. simpl. by rewrite Ha. }
  split; [done|]. rewrite Hfirst. unfold _push_lines. simpl.
  rewrite Ha, endswith_newline_append, Hb; [done|].
  by destruct b.
Qed.

(** X5. A line that arrives in three pieces is lost: when two pieces
    without newline are pushed one after the other, the second call glues
    them, schedules nothing and empties the buffer, so that the end of
    the line, when it comes, is examined without its beginning. *)
Theorem line_in_three_pieces_is_dropped (a b : string) (lines : list string) :
  endswith_newline a = false →
  endswith_newline b = false →
  let first := _push_lines settings_upload_to _download_path [a] [] in
  let second := _push_lines settings_upload_to _download_path [b] first.2 in
  second = ([], []) ∧
  _push_lines settings_upload_to _download_path lines second.2 =
  _push_lines settings_upload_to _download_path lines [].
Proof.
  intros Ha Hb first second.
  assert (Hsecond : second = ([], [])).
  { unfold second, first, _push_lines. simpl. rewrite Ha. simpl. rewrite Ha.
    by rewrite examine_partial by by apply endswith_newline_partial. }
  split; [done|]. by rewrite Hsecond.
Qed.

End LineBuffer.

(** ** Hashing the local file *)

Section Hashing.

Context {E : Type} {ext : Externals E}.

Lemma CHUNK_positive : 0 < CHUNK.
Proof. unfold CHUNK. lia. Qed.

Lemma read_chunks_fold (fuel : nat) (hasher : Hasher) (rest : list byte) :
  length rest < fuel →
  ∃ chunks,
    concat chunks = rest ∧
    Forall (λ chunk : list byte, 0 < length chunk ≤ CHUNK) chunks ∧
    read_chunks fuel hasher rest = fold_left hasher_update chunks hasher.
Proof.
  revert hasher rest.
  induction fuel as [|fuel IH]; intros hasher rest Hfuel; [lia|].
  destruct rest as [|b rest].
  - exists []. split; [done|]. split; [constructor|].
    cbn [read_chunks]. by rewrite take_nil.
  - pose proof CHUNK_positive as Hchunk. cbn [read_chunks].
    destruct CHUNK as [|n] eqn:Hn; [lia|]. simpl.
    destruct (IH (hasher_update hasher (b :: take n rest)) (drop n rest))
      as (chunks & Hconcat & Hsizes & Hread).
    { rewrite length_drop. simpl in Hfuel. lia. }
    exists ((b :: take n rest) :: chunks). split; [|split].
    + simpl. by rewrite Hconcat, take_drop.
    + constructor; [|done]. simpl. rewrite length_take. lia.
    + done.
Qed.

(** X6. [md5sum] feeds the hasher the bytes of the file, all of them and
    in order, in chunks of at least one byte and at most [CHUNK] = 65536
    bytes. *)
Theorem md5sum_reads_in_bounded_chunks (hasher : Hasher) (content : list byte) :
  ∃ chunks,
    concat chunks = content ∧
    Forall (λ chunk : list byte, 0 < length chunk ≤ CHUNK) chunks ∧
    md5sum hasher content = hexdigest (fold_left hasher_update chunks hasher).
Proof.
  destruct (read_chunks_fold (S (length content)) hasher content)
    as (chunks & Hconcat & Hsizes & Hread); [lia|].
  exists chunks. split; [done|]. split; [done|].
  unfold md5sum. by rewrite Hread.
Qed.

Lemma fold_update_concat (chunks : list (list byte)) (hasher : Hasher) :
  (∀ h a b, hasher_update (hasher_update h a) b = hasher_update h (a ++ b)) →
  chunks ≠ [] →
  fold_left hasher_update chunks hasher = hasher_update hasher (concat chunks).
Proof.
  intros Hlaw. revert hasher.
  induction chunks as [|chunk chunks IH]; intros hasher Hchunks; [done|].
  simpl. destruct chunks as [|chunk' chunks].
  - simpl. by rewrite app_nil_r.
  - rewrite IH by done. apply Hlaw.
Qed.

(** X7. For a hasher on which two updates in a row amount to one update
    with the bytes joined, the chunks do not show: [md5sum] of a file
    that is not empty is the digest after one update with the whole
    content, and [md5sum] of an empty file is the digest of the hasher as
    it was handed over, with no update. *)
Theorem md5sum_is_the_digest_of_the_content (hasher : Hasher)
    (content : list byte) :
  (∀ h a b, hasher_update (hasher_update h a) b = hasher_update h (a ++ b)) →
  md5sum hasher content =
  hexdigest (match content with
             | [] => hasher
             | _ => hasher_update hasher content
             end).
Proof.
  intros Hlaw.
  destruct (read_chunks_fold (S (length content)) hasher content)
    as (chunks & Hconcat & Hsizes & Hread); [lia|].
  unfold md5sum. rewrite Hread. f_equal.
  destruct chunks as [|chunk chunks].
  - simpl in Hconcat. by rewrite <- Hconcat.
  - rewrite fold_update_concat by done. rewrite Hconcat.
    destruct content as [|b content]; [|done].
    apply Forall_cons in Hsizes as [Hchunk _].
    simpl in Hconcat. apply app_eq_nil in Hconcat as [-> _].
    simpl in Hchunk. lia.
Qed.

End Hashing.

(** ** Waiting for a created folder *)

Section Polling.

Context {E : Type} {ext : Externals E}.

Lemma run_call_raises {A} ev (op : E → Reply A * E) (w : World E) x e' :
  op (remote w) = (Err x, e') →
  call ev op w =
  (Raise x, {| _jobs := _jobs w; remote := e'; trace := trace w ++ [ev] |}).
Proof. intros Hop. unfold call. by rewrite Hop. Qed.

Lemma wait_for_path_step (fuel : nat) (child_node : Node) (w : World E) :
  wait_for_path (S fuel) child_node w =
  match call (GetPath child_node) (get_path child_node) w with
  | (Ret _, w1) => (Ret (), w1)
  | (Raise _, w1) =>
      match _sync w1 with
      | (Ret _, w2) => wait_for_path fuel child_node w2
      | (Raise e, w2) => (Raise e, w2)
      | (Unfinished, w2) => (Unfinished, w2)
      end
  | (Unfinished, w1) => (Unfinished, w1)
  end.
Proof.
  simpl. unfold mbind, M_bind, try.
  destruct (call _ _ w) as [[path|e|] w1]; reflexivity.
Qed.

Lemma failed_poll_events (child_node : Node) (w : World E) x w1 w2 :
  call (GetPath child_node) (get_path child_node) w = (Raise x, w1) →
  _sync w1 = (Ret (), w2) →
  ∃ evs, trace w2 = trace w ++ evs ∧
         count_events is_get_path evs = 1 ∧ count_events is_sync evs = 1.
Proof.
  unfold call. destruct (get_path child_node (remote w)) as [[path|x'] e1];
    [done|]. intros [= _ <-].
  unfold _sync, call. unfold_monad. simpl.
  destruct (sync e1) as [[count|x''] e2]; [|done]. simpl. intros [= <-].
  exists [GetPath child_node; Sync; Log INFO (SyncCount count)].
  simpl. rewrite <- !app_assoc. by repeat split.
Qed.

Lemma failed_polls_events (child_node : Node) k (w w1 : World E) :
  failed_polls child_node k w = Some w1 →
  ∃ evs, trace w1 = trace w ++ evs ∧
         count_events is_get_path evs = k ∧ count_events is_sync evs = k.
Proof.
  revert w. induction k as [|k IH]; intros w; simpl.
  - intros [= ->]. exists []. by rewrite app_nil_r.
  - destruct (call _ _ w) as [[path|x|] wa] eqn:Hpath; try done.
    destruct (_sync wa) as [[[]|x'|] wb] eqn:Hsync; try done.
    intros Hrest.
    destruct (failed_poll_events _ _ _ _ _ Hpath Hsync)
      as (evs1 & Htrace1 & Hpaths1 & Hsyncs1).
    destruct (IH _ Hrest) as (evs2 & Htrace2 & Hpaths2 & Hsyncs2).
    exists (evs1 ++ evs2). rewrite !count_events_app.
    split; [by rewrite Htrace2, Htrace1, app_assoc | lia].
Qed.

Lemma wait_for_path_rounds (child_node : Node) k n (w w1 : World E) :
  failed_polls child_node k w = Some w1 →
  wait_for_path (k + n) child_node w = wait_for_path n child_node w1.
Proof.
  revert w. induction k as [|k IH]; intros w.
  - by intros [= ->].
  - change (S k + n) with (S (k + n)). rewrite wait_for_path_step. simpl.
    destruct (call _ _ w) as [[path|x|] wa]; try done.
    destruct (_sync wa) as [[[]|x'|] wb]; try done.
    apply IH.
Qed.

(** X8. The polling loop of [_upload_directory], when the path query on
    the new folder raises [k] times, each time followed by a resync that
    returns, and then answers: the loop ends with that answer, after
    [k + 1] path queries and [k] resyncs; what the query raised is
    dropped. *)
Theorem polling_ends_when_the_path_resolves (fuel k : nat) (child_node : Node)
    (w w1 : World E) (path : string) (e' : E) :
  failed_polls child_node k w = Some w1 →
  get_path child_node (remote w1) = (Ok path, e') →
  k < fuel →
  let w2 := {| _jobs := _jobs w1; remote := e';
               trace := trace w1 ++ [GetPath child_node] |} in
  wait_for_path fuel child_node w = (Ret (), w2) ∧
  count_events is_get_path (since w w2) = S k ∧
  count_events is_sync (since w w2) = k.
Proof.
  intros Hpolls Hpath Hfuel w2.
  destruct (failed_polls_events _ _ _ _ Hpolls) as (evs & Htrace & Hpaths & Hsyncs).
  split.
  - replace fuel with (k + S (fuel - S k)) by lia.
    rewrite (wait_for_path_rounds _ _ _ _ _ Hpolls), wait_for_path_step.
    by rewrite (run_call_ok _ _ _ _ _ Hpath).
  - rewrite (since_app w w2 (evs ++ [GetPath child_node])).
    + rewrite !count_events_app, Hpaths, Hsyncs.
      change (count_events is_get_path [GetPath child_node]) with 1.
      change (count_events is_sync [GetPath child_node]) with 0. lia.
    + simpl. by rewrite Htrace, app_assoc.
Qed.

(** X9. The polling loop has no bound of its own: when the path query on
    the new folder always raises and the resync always returns, the loop
    is still running after any number of rounds, each with its resync. *)
Theorem polling_goes_on_while_the_path_is_unresolved (child_node : Node) :
  (∀ e, ∃ x e', get_path child_node e = (Err x, e')) →
  answers sync →
  ∀ fuel (w : World E),
    (wait_for_path fuel child_node w).1 = Unfinished ∧
    count_events is_sync (since w (wait_for_path fuel child_node w).2) = fuel.
Proof.
  intros Hpath Hsync fuel.
  assert (Hloop : ∀ w : World E, ∃ evs,
    (wait_for_path fuel child_node w).1 = Unfinished ∧
    trace (wait_for_path fuel child_node w).2 = trace w ++ evs ∧
    count_events is_sync evs = fuel).
  { induction fuel as [|fuel IH]; intros w.
    - exists []. simpl. by rewrite app_nil_r.
    - rewrite wait_for_path_step.
      destruct (Hpath (remote w)) as (x & e1 & Hraise).
      rewrite (run_call_raises _ _ _ _ _ Hraise).
      set (wa := {| _jobs := _jobs w; remote := e1;
                    trace := trace w ++ [GetPath child_node] |}).
      destruct (Hsync e1) as (count & e2 & Hcount).
      assert (Hresync : _sync wa =
        (Ret (), {| _jobs := _jobs w; remote := e2;
                    trace := trace w ++ [GetPath child_node; Sync;
                                         Log INFO (SyncCount count)] |})).
      { unfold _sync, call. unfold_monad. simpl. rewrite Hcount. simpl.
        unfold record. simpl. by rewrite <- ?app_assoc. }
      rewrite Hresync.
      destruct (IH {| _jobs := _jobs w; remote := e2;
                      trace := trace w ++ [GetPath child_node; Sync;
                                           Log INFO (SyncCount count)] |})
        as (evs & Hunfinished & Htrace & Hsyncs).
      exists ([GetPath child_node; Sync; Log INFO (SyncCount count)] ++ evs).
      split; [done|]. split.
      + rewrite Htrace. simpl. rewrite <- app_assoc. reflexivity.
      + rewrite count_events_app, Hsyncs. reflexivity. }
  intros w. destruct (Hloop w) as (evs & Hunfinished & Htrace & Hsyncs).
  split; [done|]. by rewrite (since_app _ _ _ Htrace).
Qed.

End Polling.

(** ** How much a request writes *)

Section Spending.

Context {E : Type} {ext : Externals E}.
Variable settings : Settings.
Variables cu cc ct : nat.

Lemma total_cost_app (evs1 evs2 : list Event) :
  total_cost cu cc ct (evs1 ++ evs2) =
  total_cost cu cc ct evs1 + total_cost cu cc ct evs2.
Proof.
  unfold total_cost. induction evs1 as [|ev evs1 IH]; simpl; [done|].
  rewrite IH. lia.
Qed.

Lemma spends_weaken {A} (n n' : nat) (m : M E A) :
  n ≤ n' → spends cu cc ct n m → spends cu cc ct n' m.
Proof.
  intros Hn Hm w. destruct (Hm w) as (evs & Htrace & Hcost).
  exists evs. split; [done|lia].
Qed.

Lemma spends_ret {A} (a : A) : spends cu cc ct 0 (mret a : M E A).
Proof. intros w. exists []. simpl. by rewrite app_nil_r. Qed.

Lemma spends_unfinished {A} : spends cu cc ct 0 (unfinished : M E A).
Proof. intros w. exists []. simpl. by rewrite app_nil_r. Qed.

Lemma spends_log level msg : spends cu cc ct 0 (log level msg : M E unit).
Proof. intros w. by exists [Log level msg]. Qed.

Lemma spends_call {A} ev (op : E → Reply A * E) :
  spends cu cc ct (cost cu cc ct ev) (call ev op).
Proof.
  intros w. exists [ev]. unfold call, total_cost.
  destruct (op (remote w)) as [[a|x] e']; simpl; split; try done; lia.
Qed.

Lemma spends_bind {A B} (n1 n2 : nat) (m : M E A) (k : A → M E B) :
  spends cu cc ct n1 m → (∀ a, spends cu cc ct n2 (k a)) →
  spends cu cc ct (n1 + n2) (m ≫= k).
Proof.
  intros Hm Hk w. rewrite run_bind.
  destruct (Hm w) as (evs1 & Htrace1 & Hcost1).
  destruct (m w) as [[a|x|] w1]; simpl in *;
    [|exists evs1; split; [done|lia]..].
  destruct (Hk a w1) as (evs2 & Htrace2 & Hcost2).
  exists (evs1 ++ evs2). rewrite total_cost_app.
  split; [by rewrite Htrace2, Htrace1, app_assoc | lia].
Qed.

Lemma spends_bind_free {A B} (n : nat) (m : M E A) (k : A → M E B) :
  spends cu cc ct 0 m → (∀ a, spends cu cc ct n (k a)) →
  spends cu cc ct n (m ≫= k).
Proof. apply (spends_bind 0 n). Qed.

Lemma spends_try {A} (n : nat) (m : M E A) :
  spends cu cc ct n m → spends cu cc ct n (try m).
Proof.
  intros Hm w. destruct (Hm w) as (evs & Htrace & Hcost). exists evs.
  unfold try. by destruct (m w) as [[a|x|] w1].
Qed.

Lemma spends_or_else (n1 n2 : nat) block rest :
  spends cu cc ct n1 block → spends cu cc ct n2 rest →
  spends cu cc ct (n1 + n2) (or_else block rest : M E bool).
Proof.
  intros Hblock Hrest. apply spends_bind; [done|].
  intros [b|]; [|done]. apply (spends_weaken 0); [lia | apply spends_ret].
Qed.

Lemma spends_job_guard {A} (n : nat) token (body : M E A) :
  spends cu cc ct n body → spends cu cc ct n (job_guard token body).
Proof.
  intros Hbody w. unfold job_guard.
  destruct (Hbody (with_jobs ({[token]} ∪ _jobs w) w)) as (evs & Htrace & Hcost).
  exists evs. by destruct (body _) as [[a|x|] w1].
Qed.

(** Computations that write nothing. *)
Ltac free :=
  repeat first
    [ apply spends_ret | apply spends_log | apply spends_unfinished
    | apply (spends_call (GetPath _)) | apply (spends_call Sync)
    | apply (spends_call (GetNodeByNameFromParent _ _))
    | apply (spends_call (GetNodeByPath _))
    | apply (spends_call GetHasher) | apply (spends_call (GetMediaInfo _))
    | apply (spends_call (HttpGet _))
    | apply spends_try
    | apply (spends_bind 0 0); [|intros ?]
    | case_match ].

Lemma spends_sync : spends cu cc ct 0 (_sync : M E unit).
Proof. unfold _sync. free. Qed.

Lemma spends_should_exclude name :
  spends cu cc ct 0 (_should_exclude settings name).
Proof. unfold _should_exclude. free. Qed.

Lemma spends_verify content remote_path remote_hash :
  spends cu cc ct 0 (_verify_remote_file content remote_path remote_hash).
Proof. unfold _verify_remote_file. free. Qed.

Lemma spends_wait_for_path fuel child_node :
  spends cu cc ct 0 (wait_for_path fuel child_node).
Proof.
  induction fuel as [|fuel IH]; simpl; [free|].
  apply (spends_bind 0 0); [free|]. intros [path|x]; [free|].
  apply (spends_bind 0 0); [apply spends_sync | by intros _].
Qed.

(** One attempt makes at most one transfer and no other write. *)
Lemma spends_upload_file node file_name content :
  spends cu cc ct cu (_upload_file node file_name content).
Proof.
  unfold _upload_file, returned, fall_through.
  apply spends_bind_free; [free|]. intros path.
  apply spends_bind_free; [free|]. intros child_node.
  apply (spends_weaken (0 + cu)); [lia|]. apply spends_or_else.
  { destruct child_node as [child|]; [|free].
    destruct (negb (trashed child)); [|free].
    destruct (is_folder child); [free|].
    apply (spends_bind 0 0); [apply spends_verify|]. intros ok. free. }
  apply (spends_weaken (cu + 0)); [lia|]. apply spends_or_else; [|free].
  destruct (absent_or_trashed child_node);
    [|apply (spends_weaken 0); [lia|free]].
  apply spends_bind_free; [free|]. intros _.
  apply spends_bind_free; [free|]. intros media_info.
  apply (spends_weaken (cu + 0)); [lia|].
  apply spends_bind; [apply (spends_call (UploadFromLocal _ _))|].
  intros child. apply (spends_bind 0 0); [apply spends_verify|].
  intros ok. free.
Qed.

Lemma spends_retry_loop (n c : nat) (attempt : M E bool) :
  spends cu cc ct c attempt →
  spends cu cc ct (n * c) (retry_loop n attempt).
Proof.
  intros Hattempt. induction n as [|n IH]; simpl; [free|].
  apply spends_bind; [by apply spends_try|].
  intros [ok|x]; [apply (spends_weaken 0); [lia|free]|].
  apply spends_bind_free; [free|]. intros _.
  apply spends_bind_free; [apply spends_sync | by intros _].
Qed.

(** Finding or creating the remote directory creates at most one folder
    and writes nothing else. *)
Lemma spends_find_or_create fuel node dir_name :
  spends cu cc ct cc (find_or_create fuel node dir_name).
Proof.
  assert (Hcreate : spends cu cc ct cc (create_remote_directory fuel node dir_name)).
  { unfold create_remote_directory.
    apply (spends_weaken (cc + 0)); [lia|].
    apply spends_bind; [apply (spends_call (CreateFolder _ _))|].
    intros [child|]; [|free].
    apply (spends_bind 0 0); [apply spends_wait_for_path|]. intros _. free. }
  unfold find_or_create. apply (spends_bind 0 cc); [free|].
  intros [child|]; [|done].
  destruct (is_file child); [apply (spends_weaken 0); [lia|free]|].
  destruct (trashed child || trashed node); [done|].
  apply (spends_weaken 0); [lia|free].
Qed.

Lemma spends_for_all_ok {A} (body : A → M E bool) complaint
    (bound : A → nat) xs all_ok :
  Forall (λ x, spends cu cc ct (bound x) (body x)) xs →
  spends cu cc ct (list_sum (map bound xs)) (for_all_ok body complaint xs all_ok).
Proof.
  intros Hbody. revert all_ok.
  induction Hbody as [|x xs Hx _ IH]; intros all_ok; simpl; [free|].
  apply spends_bind; [done|]. intros [|]; simpl; [apply IH|].
  apply spends_bind_free; [free|]. intros _. apply IH.
Qed.

Lemma list_sum_linear {A} (a b : nat) (f g : A → nat) (xs : list A) :
  list_sum (map (λ x, a * f x + b * g x) xs) =
  a * list_sum (map f xs) + b * list_sum (map g xs).
Proof. induction xs as [|x xs IH]; simpl; [lia|]. rewrite IH. lia. Qed.

Lemma spends_upload fuel node name local_path :
  spends cu cc ct (RETRY_TIMES * cu * files local_path + cc * dirs local_path)
    (_upload settings fuel node name local_path).
Proof.
  revert node name.
  induction local_path as [|content|entries IH] using LocalTree_ind;
    intros node name; simpl _upload;
    (apply spends_bind_free; [apply spends_should_exclude|]);
    intros [|]; try (apply (spends_weaken 0); [lia | solve [free]]).
  - apply (spends_weaken (RETRY_TIMES * cu)); [simpl; lia|].
    apply spends_retry_loop, spends_upload_file.
  - unfold upload_directory_with.
    apply (spends_weaken
             (cc + list_sum (map (λ entry : string * LocalTree,
                                    RETRY_TIMES * cu * files entry.2 +
                                    cc * dirs entry.2) entries))).
    { rewrite list_sum_linear. simpl. lia. }
    apply spends_bind; [apply spends_find_or_create|].
    intros [child_node|]; [|apply (spends_weaken 0); [lia|free]].
    apply (spends_for_all_ok _ _
             (λ entry, RETRY_TIMES * cu * files entry.2 + cc * dirs entry.2)).
    eapply Forall_impl; [exact IH|]. intros entry Hentry. apply Hentry.
Qed.

Lemma spends_upload_path fuel remote_path local_path :
  spends cu cc ct
    (RETRY_TIMES * cu * files (on_disk local_path) +
     cc * dirs (on_disk local_path))
    (upload_path settings fuel remote_path local_path).
Proof.
  intros w. unfold upload_path. destruct (decide _) as [_|_].
  - exists [Log WARNING (StillUploading (text local_path))].
    split; [done|]. unfold total_cost. simpl. lia.
  - apply spends_job_guard.
    apply spends_bind_free; [apply spends_sync|]. intros _.
    apply spends_bind_free; [free|].
    intros [node|]; [|apply (spends_weaken 0); [lia|free]].
    eapply spends_weaken;
      [|apply spends_bind; [apply spends_upload|intros ok; free]].
    lia.
Qed.

Lemma spends_upload_torrent fuel remote_path torrent_id
    (torrent_root : string → LocalTree) root_items :
  spends cu cc ct
    (RETRY_TIMES * cu * list_sum (map (λ item, files (torrent_root item)) root_items) +
     cc * list_sum (map (λ item, dirs (torrent_root item)) root_items))
    (upload_torrent settings fuel remote_path torrent_id torrent_root root_items).
Proof.
  intros w. unfold upload_torrent. destruct (decide _) as [_|_].
  - exists [Log WARNING (StillUploading torrent_id)].
    split; [done|]. unfold total_cost. simpl. lia.
  - apply spends_job_guard.
    apply spends_bind_free; [apply spends_sync|]. intros _.
    apply spends_bind_free; [free|].
    intros [node|]; [|apply (spends_weaken 0); [lia|free]].
    eapply spends_weaken;
      [|apply (spends_for_all_ok _ _
                 (λ item : string * LocalTree,
                    RETRY_TIMES * cu * files item.2 + cc * dirs item.2))].
    + rewrite list_sum_linear, !map_map. simpl. lia.
    + apply Forall_forall. intros item _. apply spends_upload.
Qed.

End Spending.

Section WriteBounds.

Context {E : Type} {ext : Externals E}.
Variable settings : Settings.

Lemma count_events_cons p ev evs :
  count_events p (ev :: evs) = (if p ev then 1 else 0) + count_events p evs.
Proof.
  unfold count_events. rewrite filter_cons.
  destruct (p ev); case_decide; try done; simpl; lia.
Qed.

Lemma count_uploads_cost evs : count_events is_upload evs = total_cost 1 0 0 evs.
Proof.
  induction evs as [|ev evs IH]; [done|].
  rewrite count_events_cons, IH. unfold total_cost. by destruct ev.
Qed.

Lemma count_creates_cost evs : count_events is_create evs = total_cost 0 1 0 evs.
Proof.
  induction evs as [|ev evs IH]; [done|].
  rewrite count_events_cons, IH. unfold total_cost. by destruct ev.
Qed.

Lemma count_trashes_cost evs : count_events is_trash evs = total_cost 0 0 1 evs.
Proof.
  induction evs as [|ev evs IH]; [done|].
  rewrite count_events_cons, IH. unfold total_cost. by destruct ev.
Qed.

(** The three counts of a computation whose cost is bounded for every
    price of the three kinds of write. *)
Lemma spends_counts {A} (m : M E A) (files_ dirs_ : nat) (w : World E) :
  (∀ cu cc ct, spends cu cc ct (RETRY_TIMES * cu * files_ + cc * dirs_) m) →
  count_events is_upload (since w (m w).2) ≤ RETRY_TIMES * files_ ∧
  count_events is_create (since w (m w).2) ≤ dirs_ ∧
  count_events is_trash (since w (m w).2) = 0.
Proof.
  intros Hm.
  destruct (Hm 1 0 0 w) as (evs & Htrace & Huploads).
  destruct (Hm 0 1 0 w) as (evs1 & Htrace1 & Hcreates).
  destruct (Hm 0 0 1 w) as (evs2 & Htrace2 & Htrashes).
  rewrite Htrace in Htrace1, Htrace2.
  apply app_inv_head in Htrace1 as <-. apply app_inv_head in Htrace2 as <-.
  rewrite (since_app _ _ _ Htrace).
  rewrite count_uploads_cost, count_creates_cost, count_trashes_cost. lia.
Qed.

(** X10. Whatever the collaborators answer and however the request ends,
    [upload_path] makes at most 3 transfers for each regular file of the
    local tree, creates at most one remote folder for each of its
    directories, and trashes nothing; [upload_torrent] likewise, over the
    trees of its items. *)
Theorem request_writes_are_bounded (fuel : nat) (remote_path : string)
    (local_path : LocalPath) (torrent_id : string)
    (torrent_root : string → LocalTree) (root_items : list string)
    (w : World E) :
  let by_path := upload_path settings fuel remote_path local_path w in
  let by_torrent := upload_torrent settings fuel remote_path torrent_id
                      torrent_root root_items w in
  let item_files := list_sum (map (λ item, files (torrent_root item)) root_items) in
  let item_dirs := list_sum (map (λ item, dirs (torrent_root item)) root_items) in
  (count_events is_upload (since w by_path.2)
     ≤ RETRY_TIMES * files (on_disk local_path) ∧
   count_events is_create (since w by_path.2) ≤ dirs (on_disk local_path) ∧
   count_events is_trash (since w by_path.2) = 0) ∧
  (count_events is_upload (since w by_torrent.2) ≤ RETRY_TIMES * item_files ∧
   count_events is_create (since w by_torrent.2) ≤ item_dirs ∧
   count_events is_trash (since w by_torrent.2) = 0).
Proof.
  intros by_path by_torrent item_files item_dirs. split.
  - apply (spends_counts (upload_path settings fuel remote_path local_path)).
    intros cu cc ct. apply spends_upload_path.
  - apply (spends_counts (upload_torrent settings fuel remote_path torrent_id
                            torrent_root root_items)).
    intros cu cc ct. apply spends_upload_torrent.
Qed.

End WriteBounds.

(** ** The branches of the file and directory uploads *)

Section Branches.

Context {E : Type} {ext : Externals E}.
Variable settings : Settings.

Lemma upload_file_fresh node file_name content (w : World E) :
  fresh_upload_verifies node file_name content (remote w) →
  ∃ w' evs,
    _upload_file node file_name content w = (Ret true, w') ∧
    trace w' = trace w ++ evs ∧
    count_events is_attempt_start evs = 1 ∧
    count_events is_sync evs = 0 ∧
    count_events is_upload evs = 1.
Proof.
  unfold fresh_upload_verifies. intros Hfresh.
  destruct (get_path node (remote w)) as [[path|?] e1] eqn:Hpath; [|done].
  destruct (get_node_by_name_from_parent file_name node e1)
    as [[found|?] e2] eqn:Hfound; [|done].
  destruct Hfresh as (Habsent & Hfresh).
  destruct (get_media_info file_name content e2)
    as [[media_info|?] e3] eqn:Hmedia; [|done].
  destruct (upload_from_local node file_name content media_info e3)
    as [[child|?] e4] eqn:Hupload; [|done].
  destruct (get_hasher e4) as [[hasher|?] e5] eqn:Hhasher; [|done].
  unfold _upload_file, _verify_remote_file. unfold_monad.
  simpl. rewrite Hpath. simpl. rewrite Hfound. simpl. rewrite Habsent.
  destruct found as [child0|]; simpl in Habsent; rewrite ?Habsent; simpl;
    rewrite Hmedia; simpl; rewrite Hupload; simpl;
    rewrite Hhasher, Hfresh, String.eqb_refl; unfold record; simpl;
    (eexists _, _; split; [reflexivity|]); simpl; rewrite <- !app_assoc;
    (split; [reflexivity|]); by repeat split.
Qed.

(** X11. A file whose name is free under the parent, or held by a trashed
    node of either kind, is transferred once and verified: when the media
    probe and the transfer answer and the new node carries the local
    hash, the upload returns [True] with the first attempt's result,
    after one attempt, one transfer and no resync. *)
Theorem fresh_upload_is_transferred_once (node : Node) (file_name : string)
    (content : list byte) (w : World E) :
  fresh_upload_verifies node file_name content (remote w) →
  let run := _upload_file_retry node file_name content w in
  run = _upload_file node file_name content w ∧
  run.1 = Ret true ∧
  count_events is_attempt_start (since w run.2) = 1 ∧
  count_events is_sync (since w run.2) = 0 ∧
  count_events is_upload (since w run.2) = 1.
Proof.
  intros Hfresh run.
  destruct (upload_file_fresh _ _ _ _ Hfresh)
    as (w' & evs & Hrun & Htrace & Hstart & Hsync & Hupload).
  assert (Hretry : run = (Ret true, w')).
  { unfold run, _upload_file_retry. by apply retry_loop_result. }
  rewrite Hretry, Hrun. simpl. rewrite (since_app _ _ _ Htrace).
  by repeat split.
Qed.

(** X12. A live remote folder in the place of a local file ends the
    upload of the file: after the path query and the lookup the error is
    logged and the result is [False], from the first attempt, with no
    hasher fetched, no transfer and no retry. *)
Theorem folder_in_place_of_file_is_final (node child : Node)
    (file_name path : string) (content : list byte) (w : World E) (e1 e2 : E) :
  get_path node (remote w) = (Ok path, e1) →
  get_node_by_name_from_parent file_name node e1 = (Ok (Some child), e2) →
  trashed child = false →
  is_folder child = true →
  _upload_file_retry node file_name content w =
  (Ret false,
   {| _jobs := _jobs w; remote := e2;
      trace := trace w ++ [GetPath node;
                           GetNodeByNameFromParent file_name node;
                           Log ERROR (RemoteIsADirectory (join path file_name))] |}).
Proof.
  intros Hpath Hchild Htrashed Hfolder.
  unfold _upload_file_retry. apply retry_loop_result.
  unfold _upload_file. unfold_monad. simpl.
  rewrite Hpath. simpl. rewrite Hchild, Htrashed, Hfolder. simpl.
  unfold record. simpl. by rewrite <- !app_assoc.
Qed.

(** X13. A remote file in the place of a local directory, trashed or
    not, ends the upload of the directory before anything is created:
    after the lookup and the path query the error is logged and the
    result is [False], whatever the directory holds. *)
Theorem file_in_place_of_directory_is_final (fuel : nat) (node child : Node)
    (dir_name path : string) (entries : list (string * LocalTree))
    (w : World E) (e1 e2 : E) :
  get_node_by_name_from_parent dir_name node (remote w) = (Ok (Some child), e1) →
  is_folder child = false →
  get_path child e1 = (Ok path, e2) →
  _upload_directory settings fuel node dir_name entries w =
  (Ret false,
   {| _jobs := _jobs w; remote := e2;
      trace := trace w ++ [GetNodeByNameFromParent dir_name node;
                           GetPath child;
                           Log ERROR (RemoteIsAFile path)] |}).
Proof.
  intros Hchild Hfile Hpath.
  unfold _upload_directory, upload_directory_with, find_or_create, is_file.
  unfold_monad. simpl. rewrite Hchild. simpl. rewrite Hfile. simpl.
  rewrite Hpath. simpl. unfold record. simpl. by rewrite <- !app_assoc.
Qed.

Lemma spends_create_remote_directory fuel node dir_name :
  spends 0 1 0 1 (create_remote_directory fuel node dir_name : M E (option Node)).
Proof.
  unfold create_remote_directory.
  apply (spends_bind 0 1 0 1 0);
    [apply (spends_call 0 1 0 (CreateFolder node dir_name))|].
  intros [child|].
  - apply (spends_bind 0 1 0 0 0); [apply spends_wait_for_path|].
    intros _. apply spends_ret.
  - apply (spends_bind 0 1 0 0 0); [apply (spends_call 0 1 0 (GetPath node))|].
    intros path. apply (spends_bind 0 1 0 0 0); [apply spends_log|].
    intros _. apply spends_ret.
Qed.

Lemma create_remote_directory_creates_once fuel node dir_name (w : World E) :
  count_events is_create
    (since w (create_remote_directory fuel node dir_name w).2) = 1.
Proof.
  unfold create_remote_directory. rewrite run_bind.
  destruct (create_folder node dir_name (remote w)) as [[created|x] e1] eqn:Hcreate.
  - rewrite (run_call_ok _ _ _ _ _ Hcreate).
    set (w1 := {| _jobs := _jobs w; remote := e1;
                  trace := trace w ++ [CreateFolder node dir_name] |}).
    assert (Hrest : ∀ rest : M E (option Node),
      spends 0 1 0 0 rest →
      count_events is_create (since w (rest w1).2) = 1).
    { intros rest Hspends. destruct (Hspends w1) as (evs & Htrace & Hcost).
      rewrite (since_app w _ ([CreateFolder node dir_name] ++ evs)).
      - rewrite count_events_app, (count_creates_cost evs).
        change (count_events is_create [CreateFolder node dir_name]) with 1.
        lia.
      - rewrite Htrace. simpl. by rewrite <- app_assoc. }
    destruct created as [child|]; apply Hrest.
    + apply (spends_bind 0 1 0 0 0); [apply spends_wait_for_path|].
      intros _. apply spends_ret.
    + apply (spends_bind 0 1 0 0 0); [apply (spends_call 0 1 0 (GetPath node))|].
      intros path. apply (spends_bind 0 1 0 0 0); [apply spends_log|].
      intros _. apply spends_ret.
  - rewrite (run_call_raises _ _ _ _ _ Hcreate). simpl.
    by rewrite (since_app w _ [CreateFolder node dir_name]).
Qed.

(** X14. The remote directory is created exactly when it has to be.
    Once the lookup has answered, [_upload_directory] calls
    [create_folder] once when the name is free, or held by a folder that
    is trashed or whose parent is trashed, and never otherwise; a live
    folder under a live parent is used as it is, at the cost of the
    lookup alone. *)
Theorem remote_folder_is_created_when_needed (fuel : nat) (node : Node)
    (dir_name : string) (found : option Node) (w : World E) (e1 : E) :
  get_node_by_name_from_parent dir_name node (remote w) = (Ok found, e1) →
  let w1 := {| _jobs := _jobs w; remote := e1;
               trace := trace w ++ [GetNodeByNameFromParent dir_name node] |} in
  count_events is_create (since w (find_or_create fuel node dir_name w).2) =
    match found with
    | Some child =>
        if is_file child then 0
        else if trashed child || trashed node then 1 else 0
    | None => 1
    end ∧
  (∀ child, found = Some child → is_file child = false →
            trashed child = false → trashed node = false →
            find_or_create fuel node dir_name w = (Ret (Some child), w1)).
Proof.
  intros Hfound w1. unfold find_or_create.
  rewrite (run_bind_ret _ _ _ _ _ (run_call_ok _ _ _ _ _ Hfound)).
  fold w1.
  assert (Hlookup : ∀ w2 : World E, trace_grows w1 w2 →
    count_events is_create (since w w2) = count_events is_create (since w1 w2)).
  { intros w2 [evs Hevs].
    rewrite (since_app w1 w2 evs Hevs),
      (since_app w w2 ([GetNodeByNameFromParent dir_name node] ++ evs)).
    - by rewrite count_events_app.
    - rewrite Hevs. simpl. by rewrite <- app_assoc. }
  assert (Hcreated :
    count_events is_create
      (since w (create_remote_directory fuel node dir_name w1).2) = 1).
  { rewrite Hlookup; [apply create_remote_directory_creates_once|].
    destruct (spends_create_remote_directory fuel node dir_name w1)
      as (evs & Hevs & _).
    by exists evs. }
  split.
  - destruct found as [child|]; [|exact Hcreated].
    destruct (is_file child).
    + assert (Hfree : spends 0 1 0 0
                (path ← call (GetPath child) (get_path child);
                 log ERROR (RemoteIsAFile path);;
                 (mret None : M E (option Node)))).
      { apply (spends_bind 0 1 0 0 0); [apply (spends_call 0 1 0 (GetPath child))|].
        intros path. apply (spends_bind 0 1 0 0 0); [apply spends_log|].
        intros _. apply spends_ret. }
      destruct (Hfree w1) as (evs & Hevs & Hcost).
      rewrite Hlookup by (by exists evs).
      rewrite (since_app _ _ _ Hevs), count_creates_cost. lia.
    + destruct (trashed child || trashed node); [exact Hcreated|].
      simpl. by rewrite (since_app w w1 [GetNodeByNameFromParent dir_name node]).
  - intros child -> Hfile Htrashed Hparent.
    by rewrite Hfile, Htrashed, Hparent.
Qed.

End Branches.

(** ** The entry points, the exclusion filter and the dead helper *)

Section EntryPoints.

Context {E : Type} {ext : Externals E}.
Variable settings : Settings.

Lemma restored (s : gset string) (token : string) :
  token ∉ s → ({[token]} ∪ s) ∖ {[token]} = s.
Proof. intros Hfree. by rewrite add_then_discard, discard_absent. Qed.

(** X15. A target path that does not resolve fails the request before
    the local tree is looked at: after the resync and the lookup the
    error is logged and both entry points return [False], whatever is on
    disk and whatever the items are, with the registry as it was. *)
Theorem missing_target_fails_before_the_local_tree (fuel : nat)
    (remote_path : string) (local_path : LocalPath)
    (torrent_root : string → LocalTree) (root_items : list string)
    (w : World E) (count : nat) (e1 e2 : E) :
  text local_path ∉ _jobs w →
  sync (remote w) = (Ok count, e1) →
  get_node_by_path remote_path e1 = (Ok None, e2) →
  let w' := {| _jobs := _jobs w; remote := e2;
               trace := trace w ++ [Sync; Log INFO (SyncCount count);
                                    GetNodeByPath remote_path;
                                    Log ERROR (RemoteNotFound remote_path)] |} in
  upload_path settings fuel remote_path local_path w = (Ret false, w') ∧
  upload_torrent settings fuel remote_path (text local_path) torrent_root
    root_items w = (Ret false, w').
Proof.
  intros Hfree Hsync Hnode w'. unfold upload_path, upload_torrent.
  destruct (decide (text local_path ∈ _jobs w)) as [|_]; [done|].
  unfold job_guard, _sync. unfold_monad. simpl.
  rewrite Hsync. simpl. rewrite Hnode. simpl.
  unfold w', with_jobs, record. simpl.
  rewrite (restored _ _ Hfree), <- !app_assoc. by split.
Qed.

(** X16. [upload_torrent] gives the conjunction of its items.  With a
    key that is not active, a resync that returns and a target that
    resolves, when the upload of every item in turn returns a boolean,
    the result is the conjunction of these booleans, one for each item
    in order; a [False] item is logged and the items after it are still
    uploaded; the key is released. *)
Theorem torrent_result_is_conjunction (fuel : nat)
    (remote_path torrent_id : string) (torrent_root : string → LocalTree)
    (root_items : list string) (w w3 : World E) (count : nat) (node : Node)
    (e1 e2 : E) (oks : list bool) :
  torrent_id ∉ _jobs w →
  sync (remote w) = (Ok count, e1) →
  get_node_by_path remote_path e1 = (Ok (Some node), e2) →
  run_entries (λ item, _upload settings fuel node item.1 item.2)
    (λ item : string * LocalTree, UploadFailed item.1)
    (map (λ item, (item, torrent_root item)) root_items)
    {| _jobs := {[torrent_id]} ∪ _jobs w; remote := e2;
       trace := trace w ++ [Sync; Log INFO (SyncCount count);
                            GetNodeByPath remote_path] |} = Some (oks, w3) →
  upload_torrent settings fuel remote_path torrent_id torrent_root root_items w =
    (Ret (forallb id oks), with_jobs (_jobs w3 ∖ {[torrent_id]}) w3) ∧
  length oks = length root_items ∧
  _jobs w3 ∖ {[torrent_id]} = _jobs w.
Proof.
  intros Hfree Hsync Hnode Hitems. unfold upload_torrent.
  destruct (decide (torrent_id ∈ _jobs w)) as [|_]; [done|].
  destruct (for_all_ok_run _ _ _ true _ _ _ Hitems) as [Hrun Hlength].
  assert (Hjobs : _jobs w3 = {[torrent_id]} ∪ _jobs w).
  { assert (Hkeeps : preserves same_jobs
      (for_all_ok (λ item, _upload settings fuel node item.1 item.2)
         (λ item : string * LocalTree, UploadFailed item.1)
         (map (λ item, (item, torrent_root item)) root_items) true)).
    { apply preserves_for_all_ok;
        [exact same_jobs_refl | exact same_jobs_trans | exact same_jobs_step|].
      apply Forall_forall. intros item _.
      apply preserves_upload;
        [exact same_jobs_refl | exact same_jobs_trans | exact same_jobs_step]. }
    specialize (Hkeeps {| _jobs := {[torrent_id]} ∪ _jobs w; remote := e2;
       trace := trace w ++ [Sync; Log INFO (SyncCount count);
                            GetNodeByPath remote_path] |}).
    by rewrite Hrun in Hkeeps. }
  split; [|split].
  - unfold job_guard, _sync. unfold_monad. simpl.
    rewrite Hsync. simpl. rewrite Hnode. simpl.
    unfold record. simpl. rewrite <- !app_assoc. simpl.
    simpl in Hrun. by rewrite Hrun.
  - by rewrite Hlength, length_map.
  - rewrite Hjobs. by apply restored.
Qed.

(** X17. A fetch of the pattern URL that raises ends the request with
    that exception.  With a key that is not active, a resync that
    returns, a target that resolves, no static pattern matching the name
    and a configured URL whose fetch raises, [upload_path] lets the
    exception out before the local path is looked at; the key is
    released. *)
Theorem failing_pattern_fetch_ends_the_request (fuel : nat)
    (remote_path url : string) (local_path : LocalPath) (w : World E)
    (count : nat) (node : Node) (x : exn) (e1 e2 e3 : E) :
  text local_path ∉ _jobs w →
  sync (remote w) = (Ok count, e1) →
  get_node_by_path remote_path e1 = (Ok (Some node), e2) →
  matches_any (exclude_pattern settings) (name local_path) = false →
  configured (exclude_url settings) = Some url →
  curl_get_json url e2 = (Err x, e3) →
  upload_path settings fuel remote_path local_path w =
  (Raise x,
   {| _jobs := _jobs w; remote := e3;
      trace := trace w ++ [Sync; Log INFO (SyncCount count);
                           GetNodeByPath remote_path; HttpGet url] |}).
Proof.
  intros Hfree Hsync Hnode Hstatic Hurl Hfetch. unfold upload_path.
  destruct (decide (text local_path ∈ _jobs w)) as [|_]; [done|].
  assert (Hexcluded : ∀ w0 : World E, remote w0 = e2 →
    _should_exclude settings (name local_path) w0 =
    (Raise x, {| _jobs := _jobs w0; remote := e3;
                 trace := trace w0 ++ [HttpGet url] |})).
  { intros w0 Hw0. unfold _should_exclude. rewrite Hstatic, Hurl.
    unfold_monad. by rewrite Hw0, Hfetch. }
  unfold job_guard, _sync. unfold_monad. simpl.
  rewrite Hsync. simpl. rewrite Hnode. simpl.
  destruct (on_disk local_path); simpl; unfold mbind, M_bind;
    rewrite Hexcluded by done; simpl; unfold with_jobs, record; simpl;
    by rewrite (restored _ _ Hfree), <- !app_assoc.
Qed.

(** X18. [_should_exclude] is the disjunction over the static patterns
    and the values of the fetched object.  Without a URL, or with the
    empty string for one, it is the match against the static patterns
    and makes no call; with a URL whose fetch answers, it is the match
    against the static patterns followed by the fetched values. *)
Theorem exclusion_is_a_disjunction (name : string) (w : World E) :
  match configured (exclude_url settings) with
  | None =>
      _should_exclude settings name w =
      (Ret (matches_any (exclude_pattern settings) name), w)
  | Some url =>
      ∀ rv e', curl_get_json url (remote w) = (Ok rv, e') →
        (_should_exclude settings name w).1 =
        Ret (matches_any (exclude_pattern settings ++ map snd rv) name)
  end.
Proof.
  unfold _should_exclude, matches_any.
  destruct (configured (exclude_url settings)) as [url|].
  - intros rv e' Hfetch. rewrite existsb_app.
    destruct (existsb _ (exclude_pattern settings)); [done|].
    unfold_monad. by rewrite Hfetch.
  - by destruct (existsb _ (exclude_pattern settings)).
Qed.

(** X19. After a request has completed, its key can be used again, and
    while it has not, the key is refused.  From a world where the key is
    free: when the first [upload_path] returns or raises, the same
    request made again begins with a resync; when it is still running,
    the same request made again returns [False] after the warning
    alone. *)
Theorem key_is_refused_only_while_in_flight (fuel : nat) (remote_path : string)
    (local_path : LocalPath) (w : World E) :
  text local_path ∉ _jobs w →
  let first := upload_path settings fuel remote_path local_path w in
  let again := upload_path settings fuel remote_path local_path first.2 in
  match first.1 with
  | Unfinished =>
      again =
      (Ret false, record (Log WARNING (StillUploading (text local_path))) first.2)
  | _ => ∃ evs, trace again.2 = trace first.2 ++ Sync :: evs
  end.
Proof.
  intros Hfree first again.
  assert (Hbody : preserves same_jobs
    (_sync;;
     node ← call (GetNodeByPath remote_path) (get_node_by_path remote_path);
     match node with
     | None => log ERROR (RemoteNotFound remote_path);; mret false
     | Some node =>
         ok ← _upload settings fuel node (name local_path) (on_disk local_path);
         if negb ok then
           log ERROR (UploadFailed (name local_path));;
           mret ok
         else mret ok
     end)).
  { apply preserves_upload_path_body;
      [exact same_jobs_refl | exact same_jobs_trans | exact same_jobs_step]. }
  pose proof (job_guard_released _ _ w Hfree Hbody) as Hreleased.
  assert (Hfirst : first = job_guard (text local_path)
    (_sync;;
     node ← call (GetNodeByPath remote_path) (get_node_by_path remote_path);
     match node with
     | None => log ERROR (RemoteNotFound remote_path);; mret false
     | Some node =>
         ok ← _upload settings fuel node (name local_path) (on_disk local_path);
         if negb ok then
           log ERROR (UploadFailed (name local_path));;
           mret ok
         else mret ok
     end) w).
  { unfold first, upload_path. by destruct (decide _). }
  rewrite <- Hfirst in Hreleased. unfold released in Hreleased.
  assert (Hstarts : text local_path ∉ _jobs first.2 →
                    ∃ evs, trace again.2 = trace first.2 ++ Sync :: evs).
  { intros Hfree'. unfold again, upload_path.
    destruct (decide _) as [|_]; [done|].
    unfold job_guard. set (w0 := with_jobs _ first.2).
    rewrite run_bind. unfold _sync at 1. rewrite run_bind. unfold call at 1.
    destruct (sync (remote w0)) as [[count|x] e1]; simpl;
      [|by exists []].
    set (w1 := record _ _).
    assert (Hrest : preserves trace_grows
      (node ← call (GetNodeByPath remote_path) (get_node_by_path remote_path);
       match node with
       | None => log ERROR (RemoteNotFound remote_path);; mret false
       | Some node =>
           ok ← _upload settings fuel node (name local_path)
                  (on_disk local_path);
           if negb ok then
             log ERROR (UploadFailed (name local_path));;
             mret ok
           else mret ok
       end)).
    { apply preserves_bind; [exact trace_grows_trans | |].
      - apply preserves_call. exact trace_grows_step.
      - intros [node|].
        + apply preserves_bind; [exact trace_grows_trans | |].
          * apply preserves_upload;
              [exact trace_grows_refl | exact trace_grows_trans
              | exact trace_grows_step].
          * intros [|]; simpl.
            -- apply preserves_ret. exact trace_grows_refl.
            -- apply preserves_bind; [exact trace_grows_trans | |].
               ++ apply preserves_log. exact trace_grows_step.
               ++ intros _. apply preserves_ret. exact trace_grows_refl.
        + apply preserves_bind; [exact trace_grows_trans | |].
          * apply preserves_log. exact trace_grows_step.
          * intros _. apply preserves_ret. exact trace_grows_refl. }
    destruct (Hrest w1) as [evs Hevs].
    exists (Log INFO (SyncCount count) :: evs).
    match type of Hevs with
    | trace (?r).2 = _ => destruct r as [[ok|x|] w2]
    end; simpl in *; rewrite Hevs; by rewrite <- !app_assoc. }
  destruct first.1; [by apply Hstarts, Hreleased.. |].
  unfold again, upload_path. by destruct (decide _).
Qed.

(** X20. [_try_resolve_name_confliction], once the lookup has answered,
    returns a boolean: [True] without any write when the name is free;
    otherwise it trashes the node found and nothing else, returning
    [True] when the call answers, and [False] after logging the
    exception when it raises. *)
Theorem name_conflict_is_resolved_by_trashing (node : Node) (name : string)
    (found : option Node) (w : World E) (e1 : E) :
  get_node_by_name_from_parent name node (remote w) = (Ok found, e1) →
  let run := _try_resolve_name_confliction node name w in
  match found with
  | None =>
      run.1 = Ret true ∧
      since w run.2 = [GetNodeByNameFromParent name node]
  | Some taken =>
      match trash_node_by_id (id_ taken) e1 with
      | (Ok _, _) =>
          run.1 = Ret true ∧
          since w run.2 = [GetNodeByNameFromParent name node;
                           TrashNodeById (id_ taken)]
      | (Err x, _) =>
          run.1 = Ret false ∧
          since w run.2 = [GetNodeByNameFromParent name node;
                           TrashNodeById (id_ taken);
                           Log EXCEPTION (Caught x)]
      end
  end.
Proof.
  intros Hfound run. unfold run, _try_resolve_name_confliction.
  rewrite (run_bind_ret _ _ _ _ _ (run_call_ok _ _ _ _ _ Hfound)).
  destruct found as [taken|].
  - unfold_monad. simpl.
    destruct (trash_node_by_id (id_ taken) e1) as [[[]|x] e2]; simpl;
      (split; [reflexivity|]); apply since_app;
      unfold record; simpl; by rewrite <- ?app_assoc.
  - split; [reflexivity|]. by apply since_app.
Qed.

End EntryPoints.

(** ** The added properties on concrete inputs *)

Module Coverage.

Import Fake Fixtures.

Lemma complete_lines_are_examined_in_order_witness :
  HaH._push_lines "/remote" "/downloads"
    [HaH.report "first"; "[info] something else" +:+ line_feed;
     HaH.report "second"] [] =
  ([{| HaH.upload_to := "/remote"; HaH.download_path := "/downloads";
       HaH.gallery := ["first"] |};
    {| HaH.upload_to := "/remote"; HaH.download_path := "/downloads";
       HaH.gallery := ["second"] |}], []).
Proof.
  rewrite (complete_lines_are_examined_in_order "/remote" "/downloads");
    [reflexivity|].
  repeat constructor.
Defined.

Lemma line_in_two_pieces_is_reassembled_witness :
  HaH._push_lines "/remote" "/downloads"
    ["Finished download of gallery: late" +:+ line_feed]
    (HaH._push_lines "/remote" "/downloads" ["[info] GalleryDownloader: "] []).2 =
  ([{| HaH.upload_to := "/remote"; HaH.download_path := "/downloads";
       HaH.gallery := ["late"] |}], []).
Proof.
  destruct (line_in_two_pieces_is_reassembled "/remote" "/downloads"
              "[info] GalleryDownloader: "
              ("Finished download of gallery: late" +:+ line_feed) [])
    as [_ Hglued]; [reflexivity..|].
  rewrite Hglued. reflexivity.
Defined.

Lemma line_in_three_pieces_is_dropped_witness :
  let first := HaH._push_lines "/remote" "/downloads" ["[info] Gallery"] [] in
  let second := HaH._push_lines "/remote" "/downloads"
                  ["Downloader: Finished download "] first.2 in
  second = ([], []) ∧
  HaH._push_lines "/remote" "/downloads" ["of gallery: lost" +:+ line_feed]
    second.2 = ([], []).
Proof.
  intros first second.
  destruct (line_in_three_pieces_is_dropped "/remote" "/downloads"
              "[info] Gallery" "Downloader: Finished download "
              ["of gallery: lost" +:+ line_feed])
    as [Hsecond Hlater]; [reflexivity..|].
  split; [exact Hsecond|]. fold first second in Hlater. rewrite Hlater.
  reflexivity.
Defined.

Lemma md5sum_is_the_digest_of_the_content_witness :
  md5sum (ext := externals reliable) (bytes "seed") (bytes "aaa") = "seedaaa".
Proof.
  rewrite (md5sum_is_the_digest_of_the_content (ext := externals reliable));
    [reflexivity|].
  intros h a b. simpl. by rewrite app_assoc.
Defined.

Lemma polling_ends_when_the_path_resolves_witness :
  let w := start ∅ empty_remote in
  let run := wait_for_path (ext := lagging 2) 5 (folder "/remote/new") w in
  run.1 = Ret () ∧
  count_events is_get_path (since w run.2) = 3 ∧
  count_events is_sync (since w run.2) = 2.
Proof.
  intros w run.
  destruct (failed_polls (ext := lagging 2) (folder "/remote/new") 2 w)
    as [w1|] eqn:Hpolls; [|vm_compute in Hpolls; discriminate].
  assert (Hw1 : remote w1 =
    {| syncs := 2; uploads := 0; roots := [root]; children := [] |}).
  { vm_compute in Hpolls. by injection Hpolls as <-. }
  destruct (polling_ends_when_the_path_resolves (ext := lagging 2) 5 2
              (folder "/remote/new") w w1 "/remote/new" (remote w1) Hpolls)
    as (Hrun & Hpaths & Hsyncs); [by rewrite Hw1 | lia |].
  unfold run. rewrite Hrun. by repeat split.
Defined.

Lemma polling_goes_on_while_the_path_is_unresolved_witness :
  let w := start ∅ empty_remote in
  let run := wait_for_path (ext := externals paths_never_resolve) 7
               (folder "/remote/new") w in
  run.1 = Unfinished ∧ count_events is_sync (since w run.2) = 7.
Proof.
  intros w run.
  apply (polling_goes_on_while_the_path_is_unresolved
           (ext := externals paths_never_resolve) (folder "/remote/new")).
  - intros e. by eexists _, _.
  - intros e. by eexists _, _.
Defined.

Lemma fresh_upload_is_transferred_once_witness :
  let w := start ∅ empty_remote in
  let run := _upload_file_retry (ext := externals reliable) root "a.txt"
               (bytes "aaa") w in
  run.1 = Ret true ∧ count_events is_upload (since w run.2) = 1.
Proof.
  intros w run.
  destruct (fresh_upload_is_transferred_once (ext := externals reliable) root
              "a.txt" (bytes "aaa") w) as (_ & Hresult & _ & _ & Huploads).
  { vm_compute. repeat split. }
  by split.
Defined.

Lemma folder_in_place_of_file_is_final_witness :
  (_upload_file_retry (ext := externals reliable) root "a.txt" (bytes "aaa")
     (start ∅ folder_named_like_file)).1 = Ret false.
Proof.
  by rewrite (folder_in_place_of_file_is_final (ext := externals reliable)
                root (folder "/remote/a.txt") "a.txt" "/remote" (bytes "aaa")
                (start ∅ folder_named_like_file) folder_named_like_file
                folder_named_like_file).
Defined.

Lemma file_in_place_of_directory_is_final_witness :
  (_upload_directory (ext := externals reliable) no_settings 1 root "root"
     [("a.txt", File (bytes "aaa"))] (start ∅ shadowed)).1 = Ret false.
Proof.
  by rewrite (file_in_place_of_directory_is_final (ext := externals reliable)
                no_settings 1 root (file "/remote/root" "rrr") "root"
                "/remote/root" [("a.txt", File (bytes "aaa"))]
                (start ∅ shadowed) shadowed shadowed).
Defined.

Lemma remote_folder_is_created_when_needed_witness :
  let w := start ∅ mirrored in
  count_events is_create
    (since w (find_or_create (ext := externals reliable) 1 root "root" w).2) = 0 ∧
  count_events is_create
    (since w (find_or_create (ext := externals reliable) 1 root "other" w).2) = 1.
Proof.
  intros w. split.
  - by destruct (remote_folder_is_created_when_needed (ext := externals reliable)
                   1 root "root" (Some (folder "/remote/root")) w mirrored eq_refl)
      as [-> _].
  - by destruct (remote_folder_is_created_when_needed (ext := externals reliable)
                   1 root "other" None w mirrored eq_refl)
      as [-> _].
Defined.

Lemma missing_target_fails_before_the_local_tree_witness :
  (upload_path (ext := externals reliable) no_settings 1 "/nowhere" local_root
     (start ∅ empty_remote)).1 = Ret false.
Proof.
  pose proof (missing_target_fails_before_the_local_tree
                (ext := externals reliable) no_settings 1 "/nowhere" local_root
                (λ _, Absent) [] (start ∅ empty_remote) 0
                {| syncs := 1; uploads := 0; roots := [root]; children := [] |}
                {| syncs := 1; uploads := 0; roots := [root]; children := [] |})
    as Hmissing.
  destruct Hmissing as [Hpath _]; [simpl; set_solver | reflexivity..|].
  by rewrite Hpath.
Defined.

Lemma torrent_result_is_conjunction_witness :
  (upload_torrent (ext := externals reliable) no_settings 1 "/remote"
     "torrent-1" download_root ["a.txt"; "gone"; "a.txt"]
     (start ∅ empty_remote)).1 = Ret false.
Proof.
  set (after_sync :=
    {| syncs := 1; uploads := 0; roots := [root]; children := [] |}).
  destruct (run_entries
              (λ item, _upload (ext := externals reliable) no_settings 1 root
                         item.1 item.2)
              (λ item : string * LocalTree, UploadFailed item.1)
              (map (λ item, (item, download_root item)) ["a.txt"; "gone"; "a.txt"])
              {| _jobs := {["torrent-1"]} ∪ _jobs (start ∅ empty_remote);
                 remote := after_sync;
                 trace := trace (start ∅ empty_remote) ++
                          [Sync; Log INFO (SyncCount 0); GetNodeByPath "/remote"] |})
    as [[oks w3]|] eqn:Hitems; [|vm_compute in Hitems; discriminate].
  assert (Hoks : oks = [true; false; true]).
  { pose proof Hitems as Hcopy. vm_compute in Hcopy. by injection Hcopy as <- _. }
  destruct (torrent_result_is_conjunction (ext := externals reliable)
              no_settings 1 "/remote" "torrent-1" download_root
              ["a.txt"; "gone"; "a.txt"] (start ∅ empty_remote) w3 0 root
              after_sync after_sync oks) as (Hrun & _);
    [simpl; set_solver | reflexivity | reflexivity | exact Hitems |].
  by rewrite Hrun, Hoks.
Defined.

Lemma failing_pattern_fetch_ends_the_request_witness :
  (upload_path (ext := externals patterns_unreachable) remote_patterns 1
     "/remote" local_root (start ∅ empty_remote)).1 = Raise (Exn "unreachable").
Proof.
  pose proof (failing_pattern_fetch_ends_the_request
                (ext := externals patterns_unreachable) remote_patterns 1
                "/remote" "http://patterns" local_root (start ∅ empty_remote) 0
                root (Exn "unreachable")
                {| syncs := 1; uploads := 0; roots := [root]; children := [] |}
                {| syncs := 1; uploads := 0; roots := [root]; children := [] |}
                {| syncs := 1; uploads := 0; roots := [root]; children := [] |})
    as Hfetch.
  rewrite Hfetch; [reflexivity | simpl; set_solver | reflexivity..].
Defined.

Lemma key_is_refused_only_while_in_flight_witness :
  let first := upload_path (ext := externals paths_never_resolve) no_settings 3
                 "/remote" local_root (start ∅ empty_remote) in
  first.1 = Unfinished ∧
  (upload_path (ext := externals paths_never_resolve) no_settings 3 "/remote"
     local_root first.2).1 = Ret false.
Proof.
  intros first.
  assert (Hfree : text local_root ∉ _jobs (start ∅ empty_remote))
    by (simpl; set_solver).
  pose proof (key_is_refused_only_while_in_flight
                (ext := externals paths_never_resolve) no_settings 3 "/remote"
                local_root (start ∅ empty_remote) Hfree) as Hkey.
  cbv zeta in Hkey. fold first in Hkey.
  assert (Hfirst : first.1 = Unfinished).
  { unfold first, upload_path.
    destruct (decide _) as [Hactive|_]; [done|]. reflexivity. }
  split; [exact Hfirst|]. rewrite Hfirst in Hkey. by rewrite Hkey.
Defined.

Lemma name_conflict_is_resolved_by_trashing_witness :
  let run := _try_resolve_name_confliction (ext := externals reliable) root
               "root" (start ∅ shadowed) in
  run.1 = Ret true ∧
  since (start ∅ shadowed) run.2 =
    [GetNodeByNameFromParent "root" root; TrashNodeById "/remote/root"].
Proof.
  exact (name_conflict_is_resolved_by_trashing (ext := externals reliable) root
           "root" (Some (file "/remote/root" "rrr")) (start ∅ shadowed) shadowed
           eq_refl).
Defined.

End Coverage.
